(** * Kingbase SQL validation module: a shallow embedding of
      [skills/kingbase/scripts/validate.py]

    The Python module inspects a SQL text with regular expressions and
    substring counts and reports a list of issues.  The development below
    embeds

    - the characters and strings the checks look at,
    - the fragment of Python's [re] used by the module, as a backtracking
      matcher with the priorities of [re] (greedy repetition, ordered
      alternation, one capture group, negative lookahead, word boundary,
      end of string),
    - the five checkers, the aggregator [validate_sql], and the external
      collaborators (environment configuration and table catalogue) as an
      explicit [World],

    and then states the properties of the checkers as theorems. *)

From Stdlib Require Import Bool Arith NArith ZArith Lia.
From Stdlib Require Import Ascii String DecimalString.
From Stdlib Require Import List Sorted Permutation.
Import ListNotations.

Set Implicit Arguments.

(** ** Characters and text *)

(** A Python [str] is modelled as a list of characters; a character is a
    code point below 256 (Latin-1), which covers every character the
    patterns of the module mention. *)
Definition text := list ascii.

Definition t (s : string) : text := list_ascii_of_string s.

Definition code (c : ascii) : N := N_of_ascii c.

Definition nl : ascii := ascii_of_N 10.
Definition quote : ascii := ascii_of_N 39.
Definition dquote : ascii := ascii_of_N 34.
Definition backslash : ascii := ascii_of_N 92.
Definition semicolon : ascii := ascii_of_N 59.

Definition between (lo hi n : N) : bool := (lo <=? n)%N && (n <=? hi)%N.

(** [str.isspace] on a single character, which is also [\s] of [re] and
    the set [str.strip()] removes: TAB..CR, FS..US, space, NEL, NBSP. *)
Definition is_space (c : ascii) : bool :=
  let n := code c in
  between 9 13 n || between 28 32 n || (n =? 133)%N || (n =? 160)%N.

Definition is_digit (c : ascii) : bool := between 48 57 (code c).
Definition is_upper (c : ascii) : bool := between 65 90 (code c).
Definition is_lower (c : ascii) : bool := between 97 122 (code c).

(** [\w] of [re] on a [str] pattern: alphanumeric or underscore.  Above 127
    the alphanumeric Latin-1 characters are the ordinal indicators, the
    superscript digits, micro, the vulgar fractions and the letters. *)
Definition is_word (c : ascii) : bool :=
  let n := code c in
  is_digit c || is_upper c || is_lower c || (n =? 95)%N
  || (n =? 170)%N || (n =? 178)%N || (n =? 179)%N || (n =? 181)%N
  || (n =? 185)%N || (n =? 186)%N || between 188 190 n
  || between 192 214 n || between 216 246 n || between 248 255 n.

Definition is_word_opt (o : option ascii) : bool :=
  match o with Some c => is_word c | None => false end.

(** [str.lower] on a single character: the ASCII capitals and the Latin-1
    capitals (all of 192..222 but the multiplication sign) move up by 32.
    No character outside ASCII folds onto an ASCII letter. *)
Definition to_lower (c : ascii) : ascii :=
  let n := code c in
  if is_upper c || between 192 214 n || between 216 222 n
  then ascii_of_N (n + 32) else c.

Definition lower (s : text) : text := map to_lower s.

(** Comparison of a pattern literal with a character of the text, under
    [re.IGNORECASE] when [ic] is set. *)
Definition chr_eq (ic : bool) (c x : ascii) : bool :=
  if ic then Ascii.eqb (to_lower c) (to_lower x) else Ascii.eqb c x.

(** [str.strip()] *)
Fixpoint lstrip (s : text) : text :=
  match s with
  | c :: s' => if is_space c then lstrip s' else s
  | [] => []
  end.

Definition rstrip (s : text) : text := rev (lstrip (rev s)).

Definition strip (s : text) : text := rstrip (lstrip s).

(** [str.count(sub)] for a non-empty [sub]: occurrences found left to
    right, the scan resuming after each occurrence. *)
Fixpoint starts_with (sub s : text) : bool :=
  match sub, s with
  | [], _ => true
  | c :: sub', x :: s' => Ascii.eqb c x && starts_with sub' s'
  | _ :: _, [] => false
  end.

Fixpoint count_from (sub : text) (skip : nat) (s : text) : Z :=
  match s with
  | [] => 0
  | _ :: s' =>
      match skip with
      | S k => count_from sub k s'
      | O => if starts_with sub s
             then 1 + count_from sub (length sub - 1) s'
             else count_from sub 0 s'
      end
  end%Z.

Definition count (sub s : text) : Z := count_from sub 0 s.

(** ** The fragment of [re] used by the module *)

Inductive regex : Type :=
| Eps
| Chr (c : ascii)              (* a literal character *)
| Cls (f : ascii -> bool)      (* a class: \s \d \w . [...] *)
| Seq (r1 r2 : regex)
| Alt (r1 r2 : regex)          (* r1|r2, r1 tried first *)
| Star (r : regex)             (* r*, greedy *)
| Group (r : regex)            (* (r), the capture group *)
| NegLook (r : regex)          (* (?!r) *)
| WordB                        (* \b *)
| EndS.                        (* $ without re.MULTILINE *)

Definition Plus (r : regex) : regex := Seq r (Star r).
Definition Opt (r : regex) : regex := Alt r Eps.

Fixpoint lit_chars (s : text) : regex :=
  match s with
  | [] => Eps
  | c :: s' => Seq (Chr c) (lit_chars s')
  end.

Definition lit (s : string) : regex := lit_chars (t s).

Fixpoint seqs (rs : list regex) : regex :=
  match rs with
  | [] => Eps
  | [r] => r
  | r :: rs' => Seq r (seqs rs')
  end.

Fixpoint alts (r : regex) (rs : list regex) : regex :=
  match rs with
  | [] => r
  | r' :: rs' => Alt r (alts r' rs')
  end.

Definition ws : regex := Cls is_space.                       (* \s *)
Definition digit : regex := Cls is_digit.                    (* \d *)
Definition wordc : regex := Cls is_word.                     (* \w *)
Definition dot : regex := Cls (fun c => negb (Ascii.eqb c nl)). (* . *)

(** [\b]: exactly one of the two neighbours is a word character. *)
Definition boundary (p : option ascii) (s : text) : bool :=
  xorb (is_word_opt p) (is_word_opt (hd_error s)).

(** The loop of a greedy repetition: [step] matches the body once, [n]
    bounds the number of iterations by the length of the text, and an
    iteration that consumes nothing ends the loop. *)
Fixpoint star_loop (A : Type)
    (step : option ascii -> text -> option text ->
            (option ascii -> text -> option text -> option A) -> option A)
    (k : option ascii -> text -> option text -> option A)
    (n : nat) (p : option ascii) (s : text) (cap : option text) : option A :=
  match n with
  | O => k p s cap
  | S n' =>
      match step p s cap
              (fun p' s' cap' =>
                 if length s' <? length s then star_loop step k n' p' s' cap'
                 else None) with
      | Some a => Some a
      | None => k p s cap
      end
  end.

(** The matcher.  A position is the character before it ([None] at the
    start of the text) and the text after it.  [k] is the continuation run
    after [r] has matched; alternatives are explored in the order of [re],
    and the first success is the result. *)
Fixpoint rmatch (A : Type) (ic : bool) (r : regex) (p : option ascii)
    (s : text) (cap : option text)
    (k : option ascii -> text -> option text -> option A) {struct r}
    : option A :=
  match r with
  | Eps => k p s cap
  | Chr c =>
      match s with
      | x :: s' => if chr_eq ic c x then k (Some x) s' cap else None
      | [] => None
      end
  | Cls f =>
      match s with
      | x :: s' => if f x then k (Some x) s' cap else None
      | [] => None
      end
  | Seq r1 r2 =>
      rmatch ic r1 p s cap (fun p' s' cap' => rmatch ic r2 p' s' cap' k)
  | Alt r1 r2 =>
      match rmatch ic r1 p s cap k with
      | Some a => Some a
      | None => rmatch ic r2 p s cap k
      end
  | Star r1 => star_loop (rmatch (A:=A) ic r1) k (length s) p s cap
  | Group r1 =>
      rmatch ic r1 p s cap
        (fun p' s' _ => k p' s' (Some (firstn (length s - length s') s)))
  | NegLook r1 =>
      match rmatch ic r1 p s cap (fun _ _ _ => Some tt) with
      | Some _ => None
      | None => k p s cap
      end
  | WordB => if boundary p s then k p s cap else None
  | EndS =>
      match s with
      | [] => k p s cap
      | [x] => if Ascii.eqb x nl then k p s cap else None
      | _ => None
      end
  end.

(** A match: the position after it and the text of group 1. *)
Record found : Type := Found {
  f_prev : option ascii;
  f_rest : text;
  f_group : option text
}.

(** The leftmost match at or after a position. *)
Fixpoint search_at (ic : bool) (r : regex) (p : option ascii) (s : text)
    : option found :=
  match rmatch ic r p s None (fun p' s' cap => Some (Found p' s' cap)) with
  | Some m => Some m
  | None =>
      match s with
      | [] => None
      | x :: s' => search_at ic r (Some x) s'
      end
  end.

(** [re.search(pattern, s, flags)] used as a truth value. *)
Definition re_search (ic : bool) (r : regex) (s : text) : bool :=
  match search_at ic r None s with Some _ => true | None => false end.

(** [re.finditer] / [re.findall]: the non-overlapping matches from left to
    right, each given by its group 1.  The patterns iterated by the module
    begin with a keyword and never match the empty string, so the scan
    resumes where the previous match ended. *)
Fixpoint finditer_from (fuel : nat) (ic : bool) (r : regex)
    (p : option ascii) (s : text) : list text :=
  match fuel with
  | O => []
  | S fuel' =>
      match search_at ic r p s with
      | None => []
      | Some m =>
          match f_group m with Some g => g | None => [] end
          :: (if length (f_rest m) <? length s
              then finditer_from fuel' ic r (f_prev m) (f_rest m)
              else [])
      end
  end.

Definition finditer (ic : bool) (r : regex) (s : text) : list text :=
  finditer_from (S (length s)) ic r None s.

(** ** Data model *)

Inductive ValidationSeverity : Type := ERROR | WARNING | INFO.

Definition severity_eqb (a b : ValidationSeverity) : bool :=
  match a, b with
  | ERROR, ERROR | WARNING, WARNING | INFO, INFO => true
  | _, _ => false
  end.

Record ValidationIssue : Type := Issue {
  severity : ValidationSeverity;
  category : string;
  message : string;
  line : option Z;
  column : option Z;
  suggestion : option string
}.

Record ValidationResult : Type := Result {
  is_valid : bool;
  issues : list ValidationIssue
}.

Definition is_error (i : ValidationIssue) : bool := severity_eqb (severity i) ERROR.
Definition is_warning (i : ValidationIssue) : bool := severity_eqb (severity i) WARNING.
Definition is_info (i : ValidationIssue) : bool := severity_eqb (severity i) INFO.

Definition has_errors (r : ValidationResult) : bool := existsb is_error (issues r).
Definition has_warnings (r : ValidationResult) : bool := existsb is_warning (issues r).
Definition get_errors (r : ValidationResult) : list ValidationIssue := filter is_error (issues r).
Definition get_warnings (r : ValidationResult) : list ValidationIssue := filter is_warning (issues r).
Definition get_info (r : ValidationResult) : list ValidationIssue := filter is_info (issues r).

(** [str(n)] for a Python integer. *)
Definition str_of_int (n : Z) : string := NilZero.string_of_int (Z.to_int n).

Definition str_of_text (s : text) : string := string_of_list_ascii s.

(** ** Rule catalogues *)

Definition q : regex := Chr quote.
Definition ch (s : string) : regex :=
  match s with String c _ => Chr c | EmptyString => Eps end.

Definition SQL_INJECTION_PATTERNS : list (regex * string) := [
  (seqs [q; Star ws; ch ";"; Star ws; lit "DROP"; Plus ws; lit "TABLE"],
   "Potential DROP TABLE injection");
  (seqs [q; Star ws; ch ";"; Star ws; lit "DELETE"; Plus ws; lit "FROM"],
   "Potential DELETE injection");
  (seqs [q; Star ws; ch ";"; Star ws; lit "EXEC"; Star ws; ch "("],
   "Potential EXEC injection");
  (seqs [q; Star ws; lit "OR"; Plus ws; Opt q; Plus digit; Opt q; Star ws;
         ch "="; Star ws; q; Plus digit],
   "Potential OR-based injection");
  (seqs [q; Star ws; lit "AND"; Plus ws; Opt q; Plus digit; Opt q; Star ws;
         ch "="; Star ws; q; Plus digit],
   "Potential AND-based injection");
  (seqs [q; Star ws; ch ";"; Star ws; lit "--"],
   "Comment-based injection");
  (seqs [lit "admin"; q; lit "--"],
   "Comment-based authentication bypass");
  (seqs [lit "admin"; q; ch "#"],
   "Comment-based authentication bypass");
  (seqs [q; Plus ws; lit "OR"; Plus ws; ch "1"; Star ws; ch "="; Star ws; ch "1"],
   "Classic tautology injection");
  (seqs [lit "UNION"; Plus ws; lit "SELECT"],
   "Potential UNION-based injection")
]%string.

Definition not_percent (c : ascii) : bool := negb (Ascii.eqb c "%"%char).

Definition where_call (f : string) : regex :=
  seqs [lit "WHERE"; Plus ws; lit f; ch "("].

Definition PERFORMANCE_PATTERNS : list (regex * string) := [
  (seqs [lit "SELECT"; Plus ws; ch "*"; Plus ws; lit "FROM"],
   "SELECT * can be inefficient, specify columns");
  (seqs [lit "SELECT"; Plus ws; ch "*"; Plus ws; lit "FROM"; Plus ws;
         Plus wordc; Plus ws; lit "WHERE"; Plus ws; Plus wordc; Plus ws;
         lit "LIKE"; Plus ws; q; ch "%"; Star (Cls not_percent); ch "%"; q],
   "Leading wildcard in LIKE prevents index use");
  (where_call "SUBSTR", "Function on column in WHERE prevents index use");
  (where_call "SUBSTRING", "Function on column in WHERE prevents index use");
  (where_call "LOWER", "Function on column in WHERE prevents index use");
  (where_call "UPPER", "Function on column in WHERE prevents index use");
  (seqs [lit "ORDER"; Plus ws; lit "BY"; Plus ws; Plus digit;
         Star (seqs [Star ws; ch ","; Star ws; Plus digit])],
   "ORDER BY ordinal position is fragile")
]%string.

Definition lower_or_digit (c : ascii) : bool := is_lower c || is_digit c.

(** Declared by the module and used by none of its functions. *)
Definition NAMING_PATTERNS : list (regex * string) := [
  (seqs [WordB; Cls is_upper; Star (Cls lower_or_digit); Cls is_upper;
         Star (Cls lower_or_digit); WordB],
   "CamelCase detected - use snake_case for identifiers")
]%string.

(** ** Syntax checker *)

Definition syntax_error (msg : string) (sug : option string) : ValidationIssue :=
  Issue ERROR "syntax" msg None None sug.

Definition empty_issue : ValidationIssue :=
  syntax_error "Empty SQL statement" None.

Definition parens_issue (open_parens close_parens : Z) : ValidationIssue :=
  syntax_error
    ("Unbalanced parentheses: " ++ str_of_int open_parens ++ " open, "
       ++ str_of_int close_parens ++ " close")
    (Some "Ensure all opening parentheses have matching closing parentheses")%string.

Definition quotes_issue : ValidationIssue :=
  syntax_error "Unbalanced single quotes"
    (Some "Ensure all single quotes are properly closed")%string.

Definition semicolon_issue : ValidationIssue :=
  Issue INFO "style" "Missing semicolon at end of statement" None None
    (Some "Add semicolon for better SQL standards compliance")%string.

Definition select_issue : ValidationIssue :=
  syntax_error "SELECT without FROM clause"
    (Some "Check if SELECT statement is properly formed")%string.

(** [;\s*$] *)
Definition re_terminator : regex := seqs [ch ";"; Star ws; EndS].

(** [SELECT\s+(?!.*\bFROM\b)] *)
Definition re_from_ahead : regex := seqs [Star dot; WordB; lit "FROM"; WordB].
Definition re_select_no_from : regex :=
  seqs [lit "SELECT"; Plus ws; NegLook re_from_ahead].

(** [issues.append(x)] guarded by a condition. *)
Definition when (b : bool) (i : ValidationIssue) : list ValidationIssue :=
  if b then [i] else [].

Definition validate_syntax (sql : text) : ValidationResult :=
  let sql_clean := strip sql in
  match sql_clean with
  | [] => Result false [empty_issue]
  | _ :: _ =>
      let open_parens := count (t "(") sql_clean in
      let close_parens := count (t ")") sql_clean in
      let single_quotes :=
        (count [quote] sql_clean - count [backslash; quote] sql_clean)%Z in
      let issues :=
        when (negb (open_parens =? close_parens)%Z)
             (parens_issue open_parens close_parens)
        ++ when (negb (single_quotes mod 2 =? 0)%Z) quotes_issue
        ++ when (negb (re_search false re_terminator sql_clean)) semicolon_issue
        ++ when (re_search true re_select_no_from sql_clean) select_issue in
      Result (length issues =? 0) issues
  end.

(** ** Security checker *)

Definition injection_issue (msg : string) : ValidationIssue :=
  Issue ERROR "security" msg None None
    (Some "Use parameterized queries instead of string concatenation")%string.

Definition password_issue : ValidationIssue :=
  Issue WARNING "security" "Possible hardcoded password in query" None None
    (Some "Use parameterized queries for sensitive data")%string.

Definition not_brace_quote (c : ascii) : bool :=
  negb (Ascii.eqb c "{"%char) && negb (Ascii.eqb c quote).

(** The credential pattern of the source: [(password|passwd|pwd)\s*=\s*'],
    then the class [[^{']+], then a backslash-escaped double quote
    character, which [re] reads as a literal double quote. *)
Definition re_password : regex :=
  seqs [Group (alts (lit "password") [lit "passwd"; lit "pwd"]);
        Star ws; ch "="; Star ws; q; Plus (Cls not_brace_quote); Chr dquote].

Definition validate_security (sql : text) : ValidationResult :=
  let issues :=
    flat_map (fun pm => when (re_search true (fst pm) sql)
                             (injection_issue (snd pm)))
             SQL_INJECTION_PATTERNS
    ++ when (re_search true re_password sql) password_issue in
  Result true issues.

(** ** Performance checker *)

Definition performance_issue (sev : ValidationSeverity) (msg : string)
    (sug : option string) : ValidationIssue :=
  Issue sev "performance" msg None None sug.

Definition limit_issue : ValidationIssue :=
  performance_issue INFO "No LIMIT clause on SELECT statement"
    (Some "Consider adding LIMIT to prevent large result sets")%string.

Definition where_issue : ValidationIssue :=
  performance_issue WARNING "DELETE/UPDATE without WHERE clause"
    (Some "Ensure WHERE clause is present to avoid full table operations")%string.

Definition keyword (s : string) : regex := seqs [WordB; lit s; WordB].

(** [SELECT.+FROM], [\bLIMIT\b], [\b(DELETE|UPDATE)\b], [\bWHERE\b] *)
Definition re_select_from : regex := seqs [lit "SELECT"; Plus dot; lit "FROM"].
Definition re_limit : regex := keyword "LIMIT".
Definition re_delete_update : regex :=
  seqs [WordB; Group (Alt (lit "DELETE") (lit "UPDATE")); WordB].
Definition re_where : regex := keyword "WHERE".

Definition validate_performance (sql : text) : ValidationResult :=
  let issues :=
    flat_map (fun pm => when (re_search true (fst pm) sql)
                             (performance_issue WARNING (snd pm) None))
             PERFORMANCE_PATTERNS
    ++ when (re_search true re_select_from sql
             && negb (re_search true re_limit sql)) limit_issue
    ++ when (re_search true re_delete_update sql
             && negb (re_search true re_where sql)) where_issue in
  Result true issues.

(** ** Naming checker *)

Definition ident_start (c : ascii) : bool :=
  is_lower c || is_upper c || Ascii.eqb c "_"%char.
Definition ident_char (c : ascii) : bool := ident_start c || is_digit c.

(** The capture group of an identifier: [[a-zA-Z_]] followed by any
    number of [[a-zA-Z0-9_]]. *)
Definition re_identifier : regex :=
  Group (Seq (Cls ident_start) (Star (Cls ident_char))).

Definition after_keyword (kw : regex) : regex :=
  seqs [WordB; kw; Plus ws; re_identifier].

Definition two_words (a b : string) : regex := seqs [lit a; Plus ws; lit b].

Definition identifier_patterns : list regex := [
  after_keyword (lit "FROM");
  after_keyword (lit "JOIN");
  after_keyword (two_words "INSERT" "INTO");
  after_keyword (lit "UPDATE");
  after_keyword (two_words "CREATE" "TABLE")
].

(** [[a-z][A-Z]] *)
Definition re_mixed_case : regex := Seq (Cls is_lower) (Cls is_upper).

Definition naming_issue (identifier : text) : ValidationIssue :=
  Issue INFO "naming"
    ("Identifier '" ++ str_of_text identifier ++ "' uses mixed case")
    None None (Some "Consider using snake_case for consistency")%string.

Definition validate_naming (sql : text) : ValidationResult :=
  let issues :=
    flat_map (fun pattern =>
      flat_map (fun identifier =>
                  when (re_search false re_mixed_case identifier)
                       (naming_issue identifier))
               (finditer true pattern sql))
      identifier_patterns in
  Result true issues.

(** ** External collaborators *)

(** A call either returns or raises; [Raised] carries [str(e)]. *)
Inductive outcome (A : Type) : Type :=
| Returned (a : A)
| Raised (e : string).

Arguments Returned {A} a.
Arguments Raised {A} e.

Definition bind {A B : Type} (m : outcome A) (f : A -> outcome B) : outcome B :=
  match m with
  | Returned a => f a
  | Raised e => Raised e
  end.

Notation "x <- m ;; f" := (bind m (fun x => f))
  (at level 61, m at next level, right associativity).

Record KingbaseConfig : Type := Config {
  host : string;
  port : Z;
  database : string;
  user : string;
  password : string;
  schema : string;
  connect_timeout : Z;
  application_name : string
}.

(** What the checker sees of the outside: [KingbaseConfig.from_env()], which
    raises on a malformed port or timeout variable, and the body of the
    [try] block up to the set [existing_tables], that is connecting with a
    configuration and listing the [tablename] column of [pg_tables] for a
    schema, which returns the rows or raises. *)
Record World : Type := {
  from_env : outcome KingbaseConfig;
  pg_tables : KingbaseConfig -> string -> outcome (list text)
}.

(** ** Existence checker *)

Definition text_eq_dec : forall a b : text, {a = b} + {a <> b} :=
  list_eq_dec ascii_dec.

Definition mem (x : text) (l : list text) : bool :=
  if in_dec text_eq_dec x l then true else false.

(** [\b(?:FROM|JOIN|INSERT\s+INTO|UPDATE|CREATE\s+TABLE|DROP\s+TABLE)\s+]
    followed by the identifier group. *)
Definition table_pattern : regex :=
  after_keyword
    (alts (lit "FROM")
       [lit "JOIN"; two_words "INSERT" "INTO"; lit "UPDATE";
        two_words "CREATE" "TABLE"; two_words "DROP" "TABLE"]).

Definition not_tables : list text :=
  [t "select"; t "where"; t "order"; t "group"].

(** The tables a statement refers to.  The source builds a [set] and turns
    it into a list, whose order Python leaves open; here the first
    occurrences are kept in the order of the text. *)
Definition referenced_tables (sql : text) : list text :=
  rev (nodup text_eq_dec
         (rev (map lower
                 (filter (fun tb => negb (mem (lower tb) not_tables))
                         (finditer true table_pattern sql))))).

Definition missing_issue (table : text) (schema : string) : ValidationIssue :=
  Issue ERROR "existence"
    ("Table '" ++ str_of_text table ++ "' does not exist in schema '"
       ++ schema ++ "'")
    None None (Some "Verify table name or create the table first")%string.

Definition unverified_issue (e : string) : ValidationIssue :=
  Issue WARNING "existence" ("Could not verify table existence: " ++ e)
    None None (Some "Ensure database connection is working")%string.

Definition validate_table_exists (w : World) (sql : text)
    (config : option KingbaseConfig) (schema_arg : option string)
    : outcome ValidationResult :=
  config <- match config with
            | Some c => Returned c
            | None => from_env w
            end ;;
  let schema := match schema_arg with
                | Some s => s
                | None => schema config
                end in
  let tables := referenced_tables sql in
  match tables with
  | [] => Returned (Result true [])
  | _ :: _ =>
      let issues :=
        match pg_tables w config schema with
        | Returned rows =>
            let existing_tables := map lower rows in
            flat_map (fun table => when (negb (mem table existing_tables))
                                        (missing_issue table schema))
                     tables
        | Raised e => [unverified_issue e]
        end in
      Returned (Result (length issues =? 0) issues)
  end.

(** ** Aggregator *)

Definition validate_sql (w : World) (sql : text)
    (config : option KingbaseConfig) (check_existence : bool)
    : outcome ValidationResult :=
  let all_issues :=
    issues (validate_syntax sql) ++ issues (validate_security sql)
    ++ issues (validate_performance sql) ++ issues (validate_naming sql) in
  all_issues <- (if check_existence
                 then r <- validate_table_exists w sql config None ;;
                      Returned (all_issues ++ issues r)
                 else Returned all_issues) ;;
  let has_errors := existsb is_error all_issues in
  Returned (Result (negb has_errors) all_issues).

(** ** What a pattern matches, read off the pattern *)

(** The character before the position reached after reading [w]. *)
Fixpoint lastp (p : option ascii) (w : text) : option ascii :=
  match w with
  | [] => p
  | x :: w' => lastp (Some x) w'
  end.

(** Iteration of a relation "matches [w] after [p] and before [s]", each
    round reading at least one character. *)
Inductive star_mt (R : option ascii -> text -> text -> Prop)
    : option ascii -> text -> text -> Prop :=
| star_nil : forall p s, star_mt R p [] s
| star_cons : forall p w1 w2 s,
    w1 <> [] -> R p w1 (w2 ++ s) -> star_mt R (lastp p w1) w2 s ->
    star_mt R p (w1 ++ w2) s.

(** [mt ic r p w s]: the pattern [r] matches the word [w] when [w] is
    preceded by the character [p] and followed by the text [s]. *)
Fixpoint mt (ic : bool) (r : regex) (p : option ascii) (w s : text) : Prop :=
  match r with
  | Eps => w = []
  | Chr c => exists x, w = [x] /\ chr_eq ic c x = true
  | Cls f => exists x, w = [x] /\ f x = true
  | Seq r1 r2 =>
      exists w1 w2, w = w1 ++ w2 /\ mt ic r1 p w1 (w2 ++ s)
                    /\ mt ic r2 (lastp p w1) w2 s
  | Alt r1 r2 => mt ic r1 p w s \/ mt ic r2 p w s
  | Star r1 => star_mt (mt ic r1) p w s
  | Group r1 => mt ic r1 p w s
  | NegLook r1 => w = [] /\ ~ (exists w1 s1, s = w1 ++ s1 /\ mt ic r1 p w1 s1)
  | WordB => w = [] /\ boundary p s = true
  | EndS => w = [] /\ (s = [] \/ s = [nl])
  end.

(** A continuation whose success does not depend on the capture. *)
Definition cap_blind (A : Type)
    (k : option ascii -> text -> option text -> option A) : Prop :=
  forall p s c1 c2, k p s c1 <> None -> k p s c2 <> None.

(** Some match of the relation [R] at [(p, s)] lets [k] succeed. *)
Definition reaches (A : Type) (R : option ascii -> text -> text -> Prop)
    (k : option ascii -> text -> option text -> option A)
    (p : option ascii) (s : text) : Prop :=
  exists w s' cap', s = w ++ s' /\ R p w s' /\ k (lastp p w) s' cap' <> None.

(** ** Notions the statements are phrased with *)

(** Two words of the same length whose characters agree ([ic]: up to
    case). *)
Fixpoint same_chars (ic : bool) (kw w : text) : bool :=
  match kw, w with
  | [], [] => true
  | c :: kw', x :: w' => chr_eq ic c x && same_chars ic kw' w'
  | _, _ => false
  end.

(** [kw] read at the head of [s], up to case, with the rest of [s]. *)
Fixpoint read_ci (kw s : text) : option text :=
  match kw, s with
  | [], _ => Some s
  | c :: kw', x :: s' => if chr_eq true c x then read_ci kw' s' else None
  | _ :: _, [] => None
  end.

(** The keyword [kw] occurs in [s] as a whole word, in any case: not
    preceded and not followed by a word character.  [p] is the character
    before [s]. *)
Fixpoint keyword_from (kw : text) (p : option ascii) (s : text) : bool :=
  (negb (is_word_opt p)
   && match read_ci kw s with
      | Some rest => negb (is_word_opt (hd_error rest))
      | None => false
      end)
  || match s with
     | [] => false
     | x :: s' => keyword_from kw (Some x) s'
     end.

Definition contains_keyword (kw : string) (s : text) : bool :=
  keyword_from (t kw) None s.

(** The text up to the first newline. *)
Fixpoint first_line (s : text) : text :=
  match s with
  | [] => []
  | x :: s' => if Ascii.eqb x nl then [] else x :: first_line s'
  end.

Definition no_newline (s : text) : bool :=
  forallb (fun c => negb (Ascii.eqb c nl)) s.

Definition blank (s : text) : bool := forallb is_space s.

(** The single quotes of [s] that are not directly preceded by a
    backslash; [p] is the character before [s]. *)
Fixpoint unescaped_quotes (p : option ascii) (s : text) : nat :=
  match s with
  | [] => 0
  | x :: s' =>
      (if Ascii.eqb x quote
       then match p with
            | Some b => if Ascii.eqb b backslash then 0 else 1
            | None => 1
            end
       else 0) + unescaped_quotes (Some x) s'
  end.

Definition no_error (l : list ValidationIssue) : bool :=
  negb (existsb is_error l).

(** The categories the data model documents. *)
Definition documented_categories : list string :=
  ["syntax"; "security"; "performance"; "naming"; "existence"]%string.

Definition issue_eq_dec : forall a b : ValidationIssue, {a = b} + {a <> b}.
Proof. repeat decide equality. Defined.

(** ** Sample inputs *)

(** [KingbaseConfig()] with the defaults of the dataclass. *)
Definition default_config : KingbaseConfig :=
  Config "localhost" 54321 "test" "system" "" "public" 10 "kingbase_skill".

(** A world whose database cannot be reached. *)
Definition offline_world : World :=
  {| from_env := Returned default_config;
     pg_tables := fun _ _ => Raised "connection refused"%string |}.

(** The injection sample of the module's [main]. *)
Definition sql_injection : text :=
  t "SELECT * FROM users WHERE name = 'admin' OR '1'='1'".

Definition sql_injection_terminated : text :=
  t "SELECT * FROM users WHERE name = 'admin' OR '1'='1';".

Definition sql_plain : text := t "SELECT id FROM users".
Definition sql_limited : text := t "SELECT id FROM users LIMIT 5".
Definition sql_constant : text := t "SELECT 1;".
Definition sql_blank : text := t "  ".
Definition sql_password : text :=
  t "SELECT * FROM users WHERE password = 'secret123'".
Definition sql_password_dquote : text :=
  t "SELECT * FROM users WHERE password = 'secret123" ++ [dquote].
Definition sql_delete_subquery : text :=
  t "DELETE FROM logs WHERE id IN (SELECT 1)".
Definition sql_two_lines : text := t "SELECT id" ++ [nl] ++ t "FROM users".
Definition sql_select_newline_from : text :=
  t "SELECT" ++ [nl] ++ t "FROM users;".
Definition sql_select_space_newline_from : text :=
  t "SELECT " ++ [nl] ++ t "FROM users;".

(** ** Configuration check and connection: [config.py], [connect.py] *)

(** [errors.append(m)] guarded by a condition. *)
Definition note (b : bool) (m : string) : list string :=
  if b then [m] else [].

(** [KingbaseConfig.validate]: the flag and the error messages. *)
Definition validate (c : KingbaseConfig) : bool * list string :=
  let errors :=
    note (String.eqb (host c) "") "Host cannot be empty"
    ++ note (negb ((1 <=? port c) && (port c <=? 65535))%Z)
         ("Port must be between 1 and 65535, got: " ++ str_of_int (port c))
    ++ note (String.eqb (database c) "") "Database name cannot be empty"
    ++ note (String.eqb (user c) "") "User cannot be empty"
    ++ note (connect_timeout c <=? 0)%Z
         ("Timeout must be positive, got: " ++ str_of_int (connect_timeout c)) in
  (length errors =? 0, errors).

(** [repr] of a [str] of Latin-1 characters: single quotes, or double
    quotes when the text holds a single quote and no double quote;
    backslash, the chosen quote, tab, newline and carriage return escaped;
    the characters that are not printable written in hexadecimal. *)
Definition hex_digit (n : N) : ascii :=
  if (n <? 10)%N then ascii_of_N (48 + n) else ascii_of_N (87 + n).

Definition printable (c : ascii) : bool :=
  let n := code c in
  negb ((n <? 32)%N || (n =? 127)%N || between 128 160 n || (n =? 173)%N).

Definition repr_char (qt c : ascii) : string :=
  if Ascii.eqb c backslash then String backslash (String backslash "")
  else if Ascii.eqb c qt then String backslash (String c "")
  else if (code c =? 9)%N then String backslash "t"
  else if (code c =? 10)%N then String backslash "n"
  else if (code c =? 13)%N then String backslash "r"
  else if printable c then String c ""
  else String backslash
         (String "x" (String (hex_digit (code c / 16))
                        (String (hex_digit (code c mod 16)) ""))).

Fixpoint repr_body (qt : ascii) (s : string) : string :=
  match s with
  | EmptyString => ""
  | String c s' => repr_char qt c ++ repr_body qt s'
  end.

Fixpoint holds (c : ascii) (s : string) : bool :=
  match s with
  | EmptyString => false
  | String x s' => Ascii.eqb x c || holds c s'
  end.

Definition repr_str (s : string) : string :=
  let qt := if holds quote s && negb (holds dquote s) then dquote else quote in
  String qt (repr_body qt s ++ String qt "").

(** [repr] of a list of [str]. *)
Definition repr_list (l : list string) : string :=
  "[" ++ String.concat ", " (map repr_str l) ++ "]".

Definition no_driver_message : string :=
  "No database driver available. Install psycopg2: pip install psycopg2-binary".

(** [KingbaseConnection.connect] followed by the catalogue query of
    [validate_table_exists], as far as the repository decides the outcome:
    the configuration is validated first and a rejected one raises
    [KingbaseConnectionError]; without a driver the call raises; otherwise
    the outcome is that of the driver, [run]. *)
Definition connect_and_list
    (driver : option (KingbaseConfig -> string -> outcome (list text)))
    (c : KingbaseConfig) (schema : string) : outcome (list text) :=
  let (is_valid, errors) := validate c in
  if negb is_valid
  then Raised ("Invalid configuration: " ++ repr_list errors)
  else match driver with
       | Some run => run c schema
       | None => Raised no_driver_message
       end.

(** The world in which the catalogue is reached through [connect]. *)
Definition connected_world (env : outcome KingbaseConfig)
    (driver : option (KingbaseConfig -> string -> outcome (list text)))
    : World :=
  {| from_env := env; pg_tables := connect_and_list driver |}.

(** *** Reading the catalogue from the connection

    What [connect] hands to [validate_table_exists]: the raw psycopg2
    connection returned by [_connect_psycopg2], which has a [cursor]
    attribute and whose default cursor gives every row as a tuple, or the
    SQLAlchemy engine returned by [_connect_sqlalchemy], which has none.
    Either carries the answer of the database to the catalogue query for a
    schema: the values of its only column, [tablename], row by row, or the
    text of the exception raised while executing it. *)
Inductive Connection : Type :=
  | psycopg2_connection (fetchall : string -> outcome (list text))
  | sqlalchemy_engine (execute : string -> outcome (list text)).

(** [str] of the [TypeError] of [row['tablename']] on a tuple. *)
Definition tuple_index_message : string :=
  "tuple indices must be integers or slices, not str".

(** The two comprehensions that read the rows, before [lower].  The
    connection with a [cursor] attribute takes the first branch, where every
    row is indexed by the column name: a tuple refuses that, so the first
    row raises and only an answer without rows gets through.  The engine
    takes the second branch, where every row is indexed by position. *)
Definition read_tablenames (connection : Connection) (schema : string)
    : outcome (list text) :=
  match connection with
  | psycopg2_connection fetchall =>
      rows <- fetchall schema ;;
      match rows with
      | [] => Returned []
      | _ :: _ => Raised tuple_index_message
      end
  | sqlalchemy_engine execute => execute schema
  end.

(** The drivers that could be imported: [None] stands for a flag
    [PSYCOPG2_AVAILABLE] or [SQLALCHEMY_AVAILABLE] that is false; an
    installed driver connects with a configuration and gives the answers of
    the database to the catalogue query, or raises
    [KingbaseConnectionError] with the given text. *)
Record Drivers : Type := {
  connect_psycopg2
    : option (KingbaseConfig -> outcome (string -> outcome (list text)));
  connect_sqlalchemy
    : option (KingbaseConfig -> outcome (string -> outcome (list text)))
}.

(** The choice of [connect]: psycopg2 first, then SQLAlchemy. *)
Definition choose_driver (d : Drivers)
    : option (KingbaseConfig -> outcome Connection) :=
  match connect_psycopg2 d with
  | Some open =>
      Some (fun c => fetchall <- open c ;;
                     Returned (psycopg2_connection fetchall))
  | None =>
      match connect_sqlalchemy d with
      | Some open =>
          Some (fun c => execute <- open c ;;
                         Returned (sqlalchemy_engine execute))
      | None => None
      end
  end.

(** Connecting through the chosen driver, then reading the rows. *)
Definition list_tables (connect : KingbaseConfig -> outcome Connection)
    : KingbaseConfig -> string -> outcome (list text) :=
  fun c schema =>
    connection <- connect c ;; read_tablenames connection schema.

(** The world in which the catalogue is reached through [connect] with the
    installed drivers. *)
Definition installed_world (env : outcome KingbaseConfig) (d : Drivers)
    : World :=
  connected_world env (option_map list_tables (choose_driver d)).

(** A database whose schemas all hold the tables [Users] and [orders],
    reached through SQLAlchemy alone, and through psycopg2. *)
Definition sample_catalogue : string -> outcome (list text) :=
  fun _ => Returned [t "Users"; t "orders"].

Definition empty_catalogue : string -> outcome (list text) :=
  fun _ => Returned [].

Definition sqlalchemy_only (catalogue : string -> outcome (list text))
    : Drivers :=
  {| connect_psycopg2 := None;
     connect_sqlalchemy := Some (fun _ => Returned catalogue) |}.

Definition with_psycopg2 (catalogue : string -> outcome (list text))
    : Drivers :=
  {| connect_psycopg2 := Some (fun _ => Returned catalogue);
     connect_sqlalchemy := Some (fun _ => Returned catalogue) |}.

Definition sql_join : text :=
  t "SELECT * FROM users JOIN Orders ON users.id = Orders.user_id;".
Definition sql_unknown_table : text := t "SELECT id FROM invoices;".

(** ** The report: [format_validation_result] *)

(** The report holds characters beyond Latin-1, so its text is a list of
    code points. *)
Definition ustring := list N.

Definition u (s : string) : ustring := map code (list_ascii_of_string s).

Definition CHECK_MARK : N := 10003.      (* U+2713 *)
Definition BALLOT_X : N := 10007.        (* U+2717 *)
Definition WARNING_SIGN : N := 9888.     (* U+26A0 *)
Definition INFORMATION : N := 8505.      (* U+2139 *)
Definition ARROW : N := 8594.            (* U+2192 *)

(** [str.upper] on a Latin-1 character: the small letters move down by 32;
    sharp s becomes SS; micro and y with diaeresis leave Latin-1. *)
Definition upper_char (c : ascii) : ustring :=
  let n := code c in
  (if is_lower c || between 224 246 n || between 248 254 n then [n - 32]
   else if n =? 181 then [924]
   else if n =? 223 then [83; 83]
   else if n =? 255 then [376]
   else [n])%N.

Definition upper (s : string) : ustring :=
  flat_map upper_char (list_ascii_of_string s).

(** The dictionary [categories]: keys in the order of their first
    insertion, each with the issues appended to it. *)
Fixpoint group_add (issue : ValidationIssue)
    (categories : list (string * list ValidationIssue))
    : list (string * list ValidationIssue) :=
  match categories with
  | [] => [(category issue, [issue])]
  | (k, l) :: rest =>
      if String.eqb k (category issue) then (k, l ++ [issue]) :: rest
      else (k, l) :: group_add issue rest
  end.

Definition group_by_category (l : list ValidationIssue)
    : list (string * list ValidationIssue) :=
  fold_left (fun categories issue => group_add issue categories) l [].

(** [categories[category]] *)
Fixpoint lookup (k : string) (categories : list (string * list ValidationIssue))
    : list ValidationIssue :=
  match categories with
  | [] => []
  | (k', l) :: rest => if String.eqb k' k then l else lookup k rest
  end.

(** [sorted] on strings, which Python compares code point by code point;
    the keys of a dictionary are distinct, so the sorted list is determined
    by the order alone. *)
Fixpoint insert_sorted (k : string) (l : list string) : list string :=
  match l with
  | [] => [k]
  | x :: l' => if String.leb k x then k :: l else x :: insert_sorted k l'
  end.

Definition sorted (l : list string) : list string :=
  fold_right insert_sorted [] l.

Definition icon (s : ValidationSeverity) : N :=
  match s with
  | ERROR => BALLOT_X
  | WARNING => WARNING_SIGN
  | INFO => INFORMATION
  end.

Definition count_text (n : nat) : ustring := u (str_of_int (Z.of_nat n)).

Definition summary_line (result : ValidationResult) : ustring :=
  let errors := length (get_errors result) in
  let warnings := length (get_warnings result) in
  let info := length (get_info result) in
  if is_valid result && (warnings =? 0) && (info =? 0)
  then CHECK_MARK :: u " SQL validation passed - No issues found"
  else if is_valid result
  then CHECK_MARK :: u " SQL validation passed - " ++ count_text warnings
       ++ u " warning(s), " ++ count_text info ++ u " info"
  else BALLOT_X :: u " SQL validation failed - " ++ count_text errors
       ++ u " error(s), " ++ count_text warnings ++ u " warning(s), "
       ++ count_text info ++ u " info".

(** The lines of one issue; an absent or empty suggestion adds none. *)
Definition issue_lines (issue : ValidationIssue) : list ustring :=
  (u "  " ++ [icon (severity issue)] ++ u " " ++ u (message issue))
  :: match suggestion issue with
     | Some sg => if String.eqb sg "" then []
                  else [u "     " ++ [ARROW] ++ u " " ++ u sg]
     | None => []
     end.

Definition category_header (k : string) : ustring :=
  code nl :: upper k ++ u ":".

(** The list [lines] at the end of the function. *)
Definition report_lines (result : ValidationResult) : list ustring :=
  let categories := group_by_category (issues result) in
  summary_line result
  :: flat_map (fun k => category_header k
                        :: flat_map issue_lines (lookup k categories))
       (sorted (map fst categories)).

(** ["\n".join(lines)] *)
Fixpoint join_lines (lines : list ustring) : ustring :=
  match lines with
  | [] => []
  | [l] => l
  | l :: rest => l ++ code nl :: join_lines rest
  end.

Definition format_validation_result (result : ValidationResult) : ustring :=
  join_lines (report_lines result).

(** The number of newline characters of a text, and the number of lines it
    prints as: the number of pieces [split] gives at the newlines. *)
Definition newlines (s : ustring) : nat := count_occ N.eq_dec s (code nl).

Definition text_lines (s : ustring) : nat := S (newlines s).

(** A string without newline, and an issue whose category, message and
    suggestion are such strings. *)
Definition single_line (s : string) : bool := negb (holds nl s).

Definition single_line_issue (i : ValidationIssue) : bool :=
  single_line (category i) && single_line (message i)
  && match suggestion i with
     | Some sg => single_line sg
     | None => true
     end.

(** [g] is a contiguous piece of [s]; [r] is an end of [s]. *)
Definition infix (g s : text) : Prop := exists a b, s = a ++ g ++ b.
Definition suffix (r s : text) : Prop := exists a, s = a ++ r.

(** A lowercase letter directly followed by an uppercase letter. *)
Fixpoint mixed_case (s : text) : bool :=
  match s with
  | [] => false
  | x :: s' =>
      match s' with
      | y :: _ => is_lower x && is_upper y
      | [] => false
      end || mixed_case s'
  end.

(** [subseq l1 l2]: [l1] is [l2] with some elements left out, the others in
    the same order. *)
Inductive subseq (A : Type) : list A -> list A -> Prop :=
| subseq_nil : subseq [] []
| subseq_skip : forall x l1 l2, subseq l1 l2 -> subseq l1 (x :: l2)
| subseq_take : forall x l1 l2, subseq l1 l2 -> subseq (x :: l1) (x :: l2).

(** Every character, for checks by enumeration. *)
Definition all_chars : list ascii := map ascii_of_nat (seq 0 256).

(** * Properties *)

Arguments chr_eq : simpl never.
Arguments is_space : simpl never.
Arguments is_word : simpl never.
Arguments to_lower : simpl never.

(** ** Correctness of the matcher *)

Lemma lastp_app p w1 w2 : lastp p (w1 ++ w2) = lastp (lastp p w1) w2.
Proof.
  revert p; induction w1 as [|x w1 IH]; intros p; simpl; auto.
Qed.

Lemma length_app_lt (w s : text) : length s < length (w ++ s) <-> w <> [].
Proof.
  rewrite length_app. destruct w; simpl; split; intros H;
    try congruence; try lia.
Qed.

Lemma match_or_else (A : Type) (a b : option A) :
  match a with Some x => Some x | None => b end <> None
  <-> a <> None \/ b <> None.
Proof.
  destruct a; split; intros H; try tauto; try (left; congruence).
  destruct H; congruence.
Qed.

Section Star.
Variable A : Type.
Variable R : option ascii -> text -> text -> Prop.
Variable step : option ascii -> text -> option text ->
                (option ascii -> text -> option text -> option A) -> option A.
Variable k : option ascii -> text -> option text -> option A.
Hypothesis step_spec : forall k', cap_blind k' ->
  forall p s cap, step p s cap k' <> None <-> reaches R k' p s.
Hypothesis k_blind : cap_blind k.

Lemma star_loop_spec n : forall p s cap, length s <= n ->
  (star_loop step k n p s cap <> None <-> reaches (star_mt R) k p s).
Proof.
  induction n as [|n IH]; intros p s cap Hn.
  - destruct s; [|simpl in Hn; lia]. simpl. split.
    + intros H. exists [], [], cap. repeat split; auto. constructor.
    + intros (w & s' & cap' & E & _ & H).
      symmetry in E. apply app_eq_nil in E as [-> ->]. simpl in H.
      eapply k_blind; eauto.
  - simpl. rewrite match_or_else.
    match goal with |- context [step p s cap ?f] => set (k2 := f) end.
    assert (B2 : cap_blind k2).
    { intros p' s' c1 c2. unfold k2.
      destruct (Nat.ltb_spec (length s') (length s)); [|congruence].
      rewrite !IH by lia. auto. }
    rewrite (step_spec B2 p s cap). split.
    + intros [(w1 & s1 & cap1 & E & HR & H2) | H].
      * unfold k2 in H2. subst s.
        destruct (Nat.ltb_spec (length s1) (length (w1 ++ s1))) as [L|L];
          [|congruence].
        apply IH in H2; [|rewrite length_app in *; lia].
        destruct H2 as (w2 & s2 & cap2 & E2 & HS & Hk). subst s1.
        exists (w1 ++ w2), s2, cap2. rewrite <- app_assoc. split; auto.
        split; [|rewrite lastp_app; auto].
        constructor; auto. apply length_app_lt in L; auto.
      * exists [], s, cap. repeat split; auto. constructor.
    + intros (w & s' & cap' & E & HS & Hk).
      inversion HS; subst.
      * right. simpl in *. eapply k_blind; eauto.
      * left. exists w1, (w2 ++ s'), cap. rewrite app_assoc.
        split; auto. split; auto. unfold k2.
        destruct (Nat.ltb_spec (length (w2 ++ s'))
                    (length ((w1 ++ w2) ++ s'))) as [L|L].
        -- apply IH; [rewrite !length_app in *; lia|].
           exists w2, s', cap'. rewrite lastp_app in Hk. auto.
        -- rewrite <- app_assoc in L.
           assert (length (w2 ++ s') < length (w1 ++ w2 ++ s'))
             by (apply length_app_lt; auto). lia.
Qed.
End Star.

Lemma rmatch_spec (ic : bool) (r : regex) :
  forall (A : Type) (k : option ascii -> text -> option text -> option A),
    cap_blind k ->
    forall p s cap, rmatch ic r p s cap k <> None <-> reaches (mt ic r) k p s.
Proof.
  induction r as [|c|f|r1 IH1 r2 IH2|r1 IH1 r2 IH2|r1 IH1|r1 IH1|r1 IH1| |];
    intros A k B p s cap; unfold reaches; simpl.
  - split.
    + intros H. exists [], s, cap. auto.
    + intros (w & s' & cap' & -> & -> & H). simpl in *. eapply B; eauto.
  - destruct s as [|x s].
    + split; [congruence|]. intros (w & s' & cap' & E & (y & -> & _) & _).
      discriminate.
    + destruct (chr_eq ic c x) eqn:Ec; split.
      * intros H. exists [x], s, cap. simpl. eauto.
      * intros (w & s' & cap' & E & (y & -> & _) & H). simpl in *.
        injection E as -> ->. eapply B; eauto.
      * congruence.
      * intros (w & s' & cap' & E & (y & -> & Hy) & H). simpl in *.
        injection E as -> ->. congruence.
  - destruct s as [|x s].
    + split; [congruence|]. intros (w & s' & cap' & E & (y & -> & _) & _).
      discriminate.
    + destruct (f x) eqn:Ec; split.
      * intros H. exists [x], s, cap. simpl. eauto.
      * intros (w & s' & cap' & E & (y & -> & _) & H). simpl in *.
        injection E as -> ->. eapply B; eauto.
      * congruence.
      * intros (w & s' & cap' & E & (y & -> & Hy) & H). simpl in *.
        injection E as -> ->. congruence.
  - assert (B2 : cap_blind (fun p' s' cap' => rmatch ic r2 p' s' cap' k)).
    { intros p' s' c1 c2. rewrite !(IH2 _ k B). auto. }
    rewrite (IH1 _ _ B2). unfold reaches. split.
    + intros (w1 & s1 & cap1 & -> & H1 & H2).
      apply (IH2 _ k B) in H2. destruct H2 as (w2 & s2 & cap2 & -> & H2 & Hk).
      exists (w1 ++ w2), s2, cap2. rewrite <- app_assoc, lastp_app. eauto 10.
    + intros (w & s' & cap' & -> & (w1 & w2 & -> & H1 & H2) & Hk).
      exists w1, (w2 ++ s'), cap. rewrite <- app_assoc. repeat split; auto.
      apply (IH2 _ k B). exists w2, s', cap'. rewrite lastp_app in Hk. auto.
  - rewrite match_or_else, (IH1 _ k B), (IH2 _ k B). unfold reaches. split.
    + intros [(w & s' & c' & E & H & Hk) | (w & s' & c' & E & H & Hk)];
        exists w, s', c'; auto.
    + intros (w & s' & c' & E & [H|H] & Hk); [left|right];
        exists w, s', c'; auto.
  - apply star_loop_spec; auto; intros k' B'; apply IH1; auto.
  - rewrite IH1; [|intros p' s' c1 c2; auto]. unfold reaches. split.
    + intros (w & s' & c' & E & H & Hk). eauto 10.
    + intros (w & s' & c' & E & H & Hk). exists w, s', c'.
      repeat split; auto. eapply B; eauto.
  - destruct (rmatch ic r1 p s cap (fun _ _ _ => Some tt)) eqn:E.
    + split; [congruence|]. intros (w & s' & c' & -> & (-> & N) & Hk).
      exfalso. apply N.
      assert (H : rmatch ic r1 p s' cap (fun _ _ _ => Some tt) <> None)
        by (simpl in E; congruence).
      apply IH1 in H; [|intros ? ? ? ? ?; congruence].
      destruct H as (w1 & s1 & _ & E1 & H1 & _). eauto.
    + split.
      * intros H. exists [], s, cap. repeat split; auto.
        intros (w1 & s1 & E1 & H1).
        assert (H' : rmatch ic r1 p s cap (fun _ _ _ => Some tt) <> None).
        { apply IH1; [intros ? ? ? ? ?; congruence|].
          exists w1, s1, cap. repeat split; auto. congruence. }
        congruence.
      * intros (w & s' & c' & -> & (-> & N) & Hk). simpl in *.
        eapply B; eauto.
  - destruct (boundary p s) eqn:Eb; split.
    + intros H. exists [], s, cap. auto.
    + intros (w & s' & c' & -> & (-> & _) & Hk). eapply B; eauto.
    + congruence.
    + intros (w & s' & c' & -> & (-> & Hb) & Hk). simpl in *. congruence.
  - split.
    + intros H. exists [], s, cap.
      destruct s as [|x [|y s]]; try congruence; simpl; auto.
      destruct (Ascii.eqb_spec x nl); [subst; auto 6|congruence].
    + intros (w & s' & c' & -> & (-> & [-> | ->]) & Hk); simpl in *.
      * eapply B; eauto.
      * change (Ascii.eqb nl nl) with true. eapply B; eauto.
Qed.

Lemma search_at_spec (ic : bool) (r : regex) : forall s p,
  search_at ic r p s <> None
  <-> exists a w b, s = a ++ w ++ b /\ mt ic r (lastp p a) w b.
Proof.
  assert (B : cap_blind (fun p' s' cap => Some (Found p' s' cap)))
    by (intros ? ? ? ? ?; congruence).
  induction s as [|x s IH]; intros p; simpl; rewrite match_or_else,
    (rmatch_spec ic r B); unfold reaches.
  - split.
    + intros [(w & s' & _ & E & H & _) | H]; [|congruence].
      exists [], w, s'. auto.
    + intros (a & w & b & E & H). left.
      symmetry in E. apply app_eq_nil in E as [-> E]. simpl in *.
      exists w, b, None. repeat split; auto. congruence.
  - rewrite IH. split.
    + intros [(w & s' & _ & E & H & _) | (a & w & b & E & H)].
      * exists [], w, s'. auto.
      * exists (x :: a), w, b. simpl. subst s. auto.
    + intros (a & w & b & E & H). destruct a as [|y a]; simpl in *.
      * left. exists w, b, None. repeat split; auto. congruence.
      * right. injection E as -> ->. eauto.
Qed.

(** [re.search] succeeds exactly when the pattern matches some word of the
    text. *)
Lemma re_search_spec (ic : bool) (r : regex) (s : text) :
  re_search ic r s = true
  <-> exists a w b, s = a ++ w ++ b /\ mt ic r (lastp None a) w b.
Proof.
  rewrite <- search_at_spec. unfold re_search.
  destruct (search_at ic r None s); split; congruence.
Qed.

(** ** Reading the building blocks of the patterns *)

Lemma mt_lit_chars (ic : bool) (kw : text) : forall p w s,
  mt ic (lit_chars kw) p w s <-> same_chars ic kw w = true.
Proof.
  induction kw as [|c kw IH]; intros p w s; simpl.
  - destruct w; split; congruence.
  - split.
    + intros (w1 & w2 & -> & (x & -> & Hx) & H). simpl.
      rewrite Hx. apply IH in H. auto.
    + destruct w as [|x w]; [congruence|].
      intros H. apply andb_prop in H as [Hx H].
      exists [x], w. repeat split; eauto. apply IH; auto.
Qed.

Lemma mt_star_cls (ic : bool) (f : ascii -> bool) (p : option ascii)
    (w s : text) :
  star_mt (mt ic (Cls f)) p w s <-> forallb f w = true.
Proof.
  split.
  - induction 1 as [|p w1 w2 s N (x & -> & Hx) _ IH]; simpl; auto.
    rewrite Hx; auto.
  - revert p; induction w as [|x w IH]; intros p H; simpl in *.
    + constructor.
    + apply andb_prop in H as [Hx H].
      change (x :: w) with ([x] ++ w).
      constructor; simpl; eauto. congruence.
Qed.

Lemma mt_plus_cls (ic : bool) (f : ascii -> bool) (p : option ascii)
    (w s : text) :
  mt ic (Plus (Cls f)) p w s <-> w <> [] /\ forallb f w = true.
Proof.
  simpl. split.
  - intros (w1 & w2 & -> & (x & -> & Hx) & H).
    apply (mt_star_cls ic) in H.
    simpl. rewrite Hx, H. split; [congruence|reflexivity].
  - destruct w as [|x w]; intros [N H]; [congruence|]. simpl in H.
    apply andb_prop in H as [Hx H]. exists [x], w.
    repeat split; eauto. apply (mt_star_cls ic f); auto.
Qed.

(** ** Characters *)

Lemma all_chars_complete c : In c all_chars.
Proof.
  unfold all_chars. rewrite <- (ascii_nat_embedding c).
  apply in_map, in_seq. pose proof (nat_ascii_bounded c). lia.
Qed.

Lemma for_all_chars (f : ascii -> bool) :
  forallb f all_chars = true -> forall c, f c = true.
Proof.
  intros H c. rewrite forallb_forall in H. apply H, all_chars_complete.
Qed.

Lemma is_word_to_lower c : is_word (to_lower c) = is_word c.
Proof.
  apply Bool.eqb_prop.
  apply (for_all_chars (fun c => Bool.eqb (is_word (to_lower c)) (is_word c))).
  vm_compute; reflexivity.
Qed.

Lemma chr_eq_word c x :
  chr_eq true c x = true -> is_word c = true -> is_word x = true.
Proof.
  unfold chr_eq. intros H Hc. apply Ascii.eqb_eq in H.
  rewrite <- is_word_to_lower, <- H, is_word_to_lower. exact Hc.
Qed.

Lemma space_not_word c : is_space c = true -> is_word c = false.
Proof.
  intros H.
  pose proof (for_all_chars (fun c => implb (is_space c) (negb (is_word c))))
    as F.
  assert (E : forallb (fun c => implb (is_space c) (negb (is_word c)))
                all_chars = true) by (vm_compute; reflexivity).
  specialize (F E c). cbv beta in F. rewrite H in F.
  destruct (is_word c); [discriminate F|reflexivity].
Qed.

Lemma chr_eq_not_newline c x :
  chr_eq true c x = true -> is_word c = true -> Ascii.eqb x nl = false.
Proof.
  intros H Hc. pose proof (chr_eq_word _ _ H Hc) as Hx.
  destruct (Ascii.eqb_spec x nl) as [->|]; [exfalso|reflexivity].
  assert (E : is_word nl = false) by (vm_compute; reflexivity). congruence.
Qed.

Lemma chr_eq_dquote x : chr_eq true dquote x = true -> x = dquote.
Proof.
  intros H. apply Ascii.eqb_eq.
  pose proof (for_all_chars
                (fun x => implb (chr_eq true dquote x) (Ascii.eqb x dquote)))
    as F.
  assert (E : forallb (fun x => implb (chr_eq true dquote x)
                                      (Ascii.eqb x dquote))
                all_chars = true) by (vm_compute; reflexivity).
  specialize (F E x). cbv beta in F. rewrite H in F. exact F.
Qed.

Lemma chr_eq_exact c x : chr_eq false c x = true -> x = c.
Proof. unfold chr_eq. intros H. apply Ascii.eqb_eq in H. auto. Qed.

(** ** [strip] *)

Lemma lstrip_split s : exists l, s = l ++ lstrip s /\ blank l = true.
Proof.
  induction s as [|x s (l & E & B)]; simpl.
  - exists []. auto.
  - destruct (is_space x) eqn:Hx.
    + exists (x :: l). unfold blank in *. simpl. rewrite Hx, B.
      split; [congruence|reflexivity].
    + exists []. auto.
Qed.

Lemma lstrip_head s x r : lstrip s = x :: r -> is_space x = false.
Proof.
  induction s as [|y s IH]; simpl; [congruence|].
  destruct (is_space y) eqn:Hy; auto. intros E. injection E as -> _. auto.
Qed.

Lemma lstrip_nil s : lstrip s = [] <-> blank s = true.
Proof.
  induction s as [|y s IH]; simpl; [tauto|].
  destruct (is_space y); simpl; [exact IH|]. split; congruence.
Qed.

Lemma blank_app a b : blank (a ++ b) = blank a && blank b.
Proof. apply forallb_app. Qed.

Lemma blank_rev s : blank (rev s) = blank s.
Proof.
  induction s as [|x s IH]; simpl; auto.
  rewrite blank_app, IH. simpl. rewrite andb_true_r, andb_comm. reflexivity.
Qed.

Lemma rstrip_split s : exists r, s = rstrip s ++ r /\ blank r = true.
Proof.
  destruct (lstrip_split (rev s)) as (l & E & B).
  exists (rev l). rewrite blank_rev. split; auto.
  unfold rstrip. rewrite <- rev_app_distr, <- E, rev_involutive. reflexivity.
Qed.

Lemma strip_split s :
  exists l r, s = l ++ strip s ++ r /\ blank l = true /\ blank r = true.
Proof.
  destruct (lstrip_split s) as (l & E & B).
  destruct (rstrip_split (lstrip s)) as (r & E' & B').
  exists l, r. unfold strip. rewrite <- E', <- E. auto.
Qed.

Lemma strip_nil s : strip s = [] <-> blank s = true.
Proof.
  destruct (strip_split s) as (l & r & E & Bl & Br). split.
  - intros H. rewrite H in E. simpl in E.
    rewrite E, blank_app, Bl, Br. reflexivity.
  - intros H. apply lstrip_nil in H. unfold strip. rewrite H. reflexivity.
Qed.

Lemma lastp_snoc p s x : lastp p (s ++ [x]) = Some x.
Proof. rewrite lastp_app. reflexivity. Qed.

Lemma lastp_rev p s : lastp p (rev s) = match s with x :: _ => Some x | [] => p end.
Proof. destruct s as [|x s]; simpl; auto. apply lastp_snoc. Qed.

(** The cleaned text never ends with a whitespace character. *)
Lemma strip_last s c : lastp None (strip s) = Some c -> is_space c = false.
Proof.
  unfold strip, rstrip. rewrite lastp_rev.
  destruct (lstrip (rev (lstrip s))) as [|x r] eqn:E; [congruence|].
  intros H. injection H as ->. eapply lstrip_head; eauto.
Qed.

Lemma lastp_blank l : blank l = true ->
  lastp None l = None \/ exists c, lastp None l = Some c /\ is_space c = true.
Proof.
  destruct l as [|x l] using rev_ind; auto.
  rewrite blank_app. simpl. intros H. apply andb_prop in H as [_ H].
  rewrite andb_true_r in H. right. exists x. rewrite lastp_snoc. auto.
Qed.

(** ** Counting quotes *)

Lemma count_quote_cons x s :
  count [quote] (x :: s)
  = ((if Ascii.eqb quote x then 1 else 0) + count [quote] s)%Z.
Proof.
  unfold count. cbn [count_from starts_with length Nat.sub].
  rewrite andb_true_r. destruct (Ascii.eqb quote x); reflexivity.
Qed.

Lemma count_escaped_cons x s :
  count [backslash; quote] (x :: s)
  = ((if Ascii.eqb backslash x && starts_with [quote] s then 1 else 0)
     + count [backslash; quote] s)%Z.
Proof.
  unfold count. cbn [count_from length Nat.sub].
  change (starts_with [backslash; quote] (x :: s))
    with (Ascii.eqb backslash x && starts_with [quote] s).
  destruct (Ascii.eqb backslash x); [|reflexivity].
  destruct s as [|y s]; [reflexivity|].
  cbn [andb starts_with count_from]. rewrite andb_true_r.
  destruct (Ascii.eqb_spec quote y) as [<-|N]; [|reflexivity].
  change (Ascii.eqb backslash quote) with false. reflexivity.
Qed.

(** The difference computed by the checker counts the quotes that no
    backslash precedes. *)
Lemma quotes_balance : forall s p,
  (count [quote] s - count [backslash; quote] s
   = Z.of_nat (unescaped_quotes p s)
     + (if match p with Some b => Ascii.eqb b backslash | None => false end
           && starts_with [quote] s
        then 1 else 0))%Z.
Proof.
  induction s as [|x s IH]; intros p.
  - simpl. rewrite andb_false_r. reflexivity.
  - rewrite count_quote_cons, count_escaped_cons.
    specialize (IH (Some x)). cbv beta iota in IH.
    cbn [unescaped_quotes].
    change (starts_with [quote] (x :: s)) with (Ascii.eqb quote x && true).
    rewrite andb_true_r, Nat2Z.inj_add.
    rewrite (Ascii.eqb_sym x backslash) in IH.
    rewrite (Ascii.eqb_sym x quote).
    destruct (starts_with [quote] s);
      destruct (Ascii.eqb backslash x);
      destruct (Ascii.eqb quote x);
      destruct p as [b|]; try destruct (Ascii.eqb b backslash);
      cbn [andb Z.of_nat] in *; lia.
Qed.

Lemma unescaped_quotes_count s :
  (count [quote] s - count [backslash; quote] s)%Z
  = Z.of_nat (unescaped_quotes None s).
Proof. rewrite (quotes_balance s None). simpl. lia. Qed.

Lemma unescaped_quotes_app s1 : forall p s2,
  unescaped_quotes p (s1 ++ s2)
  = unescaped_quotes p s1 + unescaped_quotes (lastp p s1) s2.
Proof.
  induction s1 as [|x s1 IH]; intros p s2; simpl; auto.
  rewrite IH. lia.
Qed.

Lemma space_not_quote x : is_space x = true -> Ascii.eqb x quote = false.
Proof.
  intros H. destruct (Ascii.eqb_spec x quote) as [->|]; [|reflexivity].
  assert (E : is_space quote = false) by (vm_compute; reflexivity).
  congruence.
Qed.

Lemma space_not_backslash x : is_space x = true -> Ascii.eqb x backslash = false.
Proof.
  intros H. destruct (Ascii.eqb_spec x backslash) as [->|]; [|reflexivity].
  assert (E : is_space backslash = false) by (vm_compute; reflexivity).
  congruence.
Qed.

Lemma unescaped_quotes_blank s : forall p,
  blank s = true -> unescaped_quotes p s = 0.
Proof.
  induction s as [|x s IH]; intros p H; simpl; auto.
  unfold blank in H. simpl in H. apply andb_prop in H as [Hx H].
  rewrite (space_not_quote _ Hx), IH; auto.
Qed.

Lemma unescaped_quotes_prev s p p' :
  match p with Some b => Ascii.eqb b backslash | None => false end
  = match p' with Some b => Ascii.eqb b backslash | None => false end ->
  unescaped_quotes p s = unescaped_quotes p' s.
Proof.
  destruct s as [|x s]; simpl; auto. intros H. f_equal.
  destruct (Ascii.eqb x quote); auto.
  destruct p as [b|], p' as [b'|]; try rewrite H; auto;
    try rewrite <- H; auto.
Qed.

(** Removing the surrounding whitespace keeps the unescaped quotes. *)
Lemma unescaped_quotes_strip s :
  unescaped_quotes None (strip s) = unescaped_quotes None s.
Proof.
  destruct (strip_split s) as (l & r & E & Bl & Br).
  rewrite E at 2. rewrite !unescaped_quotes_app.
  rewrite (unescaped_quotes_blank _ _ Bl), (unescaped_quotes_blank _ _ Br).
  rewrite Nat.add_0_r. simpl. apply unescaped_quotes_prev.
  destruct (lastp_blank _ Bl) as [-> | (c & -> & Hc)]; auto.
  rewrite (space_not_backslash _ Hc). reflexivity.
Qed.

(** ** Keywords *)

Lemma read_ci_spec kw : forall s rest,
  read_ci kw s = Some rest
  <-> exists F, s = F ++ rest /\ same_chars true kw F = true.
Proof.
  induction kw as [|c kw IH]; intros s rest; simpl.
  - split.
    + intros E. injection E as ->. exists []. auto.
    + intros ([|x F] & -> & H); [reflexivity|discriminate].
  - destruct s as [|x s].
    + split; [discriminate|]. intros ([|y F] & E & H); discriminate.
    + destruct (chr_eq true c x) eqn:Hc.
      * rewrite IH. split.
        -- intros (F & -> & H). exists (x :: F). simpl. rewrite Hc. auto.
        -- intros ([|y F] & E & H); [discriminate|]. simpl in E.
           injection E as <- ->. apply andb_prop in H as [_ H]. eauto.
      * split; [discriminate|]. intros ([|y F] & E & H); [discriminate|].
        simpl in E. injection E as <- ->. rewrite Hc in H. discriminate.
Qed.

Lemma keyword_from_intro kw d : forall p F rest,
  is_word_opt (lastp p d) = false ->
  same_chars true kw F = true ->
  is_word_opt (hd_error rest) = false ->
  keyword_from kw p (d ++ F ++ rest) = true.
Proof.
  induction d as [|x d IH]; intros p F rest Hp HF Hr.
  - simpl in *. assert (E : read_ci kw (F ++ rest) = Some rest)
      by (apply read_ci_spec; eauto).
    destruct (F ++ rest); simpl; rewrite Hp, E, Hr; reflexivity.
  - simpl. rewrite (IH (Some x) F rest); auto. apply orb_true_r.
Qed.

Lemma keyword_from_elim kw s : forall p,
  keyword_from kw p s = true ->
  exists d F rest, s = d ++ F ++ rest
    /\ is_word_opt (lastp p d) = false
    /\ same_chars true kw F = true
    /\ is_word_opt (hd_error rest) = false.
Proof.
  assert (Here : forall p s,
    negb (is_word_opt p)
    && match read_ci kw s with
       | Some rest => negb (is_word_opt (hd_error rest))
       | None => false
       end = true ->
    exists d F rest, s = d ++ F ++ rest
      /\ is_word_opt (lastp p d) = false
      /\ same_chars true kw F = true
      /\ is_word_opt (hd_error rest) = false).
  { intros p s0 H. apply andb_prop in H as [Hp H].
    destruct (read_ci kw s0) as [rest|] eqn:E; [|discriminate].
    apply read_ci_spec in E as (F & -> & HF).
    exists [], F, rest. simpl. rewrite negb_true_iff in *. auto. }
  induction s as [|x s IH]; intros p H.
  - simpl in H. rewrite orb_false_r in H. auto.
  - simpl in H. apply orb_prop in H as [H|H]; [auto|].
    apply IH in H as (d & F & rest & -> & Hp & HF & Hr).
    exists (x :: d), F, rest. auto.
Qed.

Lemma same_chars_word kw : forall w,
  forallb is_word kw = true -> same_chars true kw w = true ->
  forallb is_word w = true.
Proof.
  induction kw as [|c kw IH]; intros [|x w] Hk H; simpl in *;
    try discriminate; auto.
  apply andb_prop in Hk as [Hc Hk]. apply andb_prop in H as [Hx H].
  rewrite (chr_eq_word _ _ Hx Hc), (IH w); auto.
Qed.

Lemma same_chars_nonempty ic kw w :
  kw <> [] -> same_chars ic kw w = true -> w <> [].
Proof. destruct kw, w; simpl; congruence. Qed.

Lemma lastp_forallb (f : ascii -> bool) w : forall p,
  forallb f w = true -> w <> [] -> exists y, lastp p w = Some y /\ f y = true.
Proof.
  induction w as [|x w IH]; intros p H N; [congruence|].
  simpl in *. apply andb_prop in H as [Hx H].
  destruct w as [|y w]; [simpl; eauto|]. apply IH; auto. congruence.
Qed.

Lemma word_no_newline w : forallb is_word w = true -> no_newline w = true.
Proof.
  unfold no_newline. intros H. apply forallb_forall. intros x Hx.
  rewrite forallb_forall in H. specialize (H x Hx).
  destruct (Ascii.eqb_spec x nl) as [->|]; [|reflexivity].
  assert (E : is_word nl = false) by (vm_compute; reflexivity). congruence.
Qed.

(** A pattern [\bKW\b] matches a word [w] exactly when [w] spells the
    keyword and neither neighbour is a word character. *)
Lemma mt_keyword (kw : string) (p : option ascii) (w s : text) :
  t kw <> [] -> forallb is_word (t kw) = true ->
  (mt true (keyword kw) p w s
   <-> same_chars true (t kw) w = true
       /\ is_word_opt p = false /\ is_word_opt (hd_error s) = false).
Proof.
  intros N W. unfold keyword. cbn [seqs]. split.
  - intros (w1 & w23 & -> & (-> & B1) & w2 & w3 & -> & H2 & (-> & B2)).
    apply mt_lit_chars in H2. simpl in *. rewrite app_nil_r in *.
    pose proof (same_chars_word _ _ W H2) as Hw.
    pose proof (same_chars_nonempty _ N H2) as Nw.
    split; auto. unfold boundary in *.
    destruct (@lastp_forallb is_word w2 p Hw Nw) as (y & Ey & Hy).
    rewrite Ey in B2. simpl in B2. rewrite Hy in B2.
    destruct w2 as [|x w2]; [congruence|]. simpl in *.
    apply andb_prop in Hw as [Hx _]. rewrite Hx in B1.
    destruct (is_word_opt p), (is_word_opt (hd_error s)); auto; discriminate.
  - intros (H & Hp & Hs).
    pose proof (same_chars_word _ _ W H) as Hw.
    pose proof (same_chars_nonempty _ N H) as Nw.
    exists [], w. split; auto. split.
    + split; auto. unfold boundary. rewrite Hp.
      destruct w as [|x w]; [congruence|]. simpl in *.
      apply andb_prop in Hw as [Hx _]. rewrite Hx. reflexivity.
    + exists w, []. rewrite app_nil_r. split; auto. split.
      * apply mt_lit_chars. exact H.
      * split; auto. unfold boundary. simpl.
        destruct (@lastp_forallb is_word w p Hw Nw) as (y & Ey & Hy).
        rewrite Ey. simpl. rewrite Hy, Hs. reflexivity.
Qed.

Lemma bool_iff (a b : bool) : (a = true <-> b = true) -> a = b.
Proof. destruct a, b; intros [H1 H2]; auto; try (symmetry; auto). Qed.

(** [re.search] of a keyword pattern is the occurrence of the keyword. *)
Lemma re_search_keyword (kw : string) (s : text) :
  t kw <> [] -> forallb is_word (t kw) = true ->
  re_search true (keyword kw) s = contains_keyword kw s.
Proof.
  intros N W. apply bool_iff. rewrite re_search_spec. unfold contains_keyword.
  split.
  - intros (a & w & b & -> & H). apply mt_keyword in H as (H & Hp & Hs); auto.
    apply keyword_from_intro; auto.
  - intros H. apply keyword_from_elim in H as (d & F & rest & -> & Hp & HF & Hr).
    exists d, F, rest. split; auto. apply mt_keyword; auto.
Qed.

(** ** Lines *)

Lemma first_line_app a b :
  no_newline a = true -> first_line (a ++ b) = a ++ first_line b.
Proof.
  induction a as [|x a IH]; simpl; auto. intros H.
  apply andb_prop in H as [Hx H]. rewrite negb_true_iff in Hx.
  rewrite Hx, IH; auto.
Qed.

Lemma first_line_head s :
  is_word_opt (hd_error s) = false ->
  is_word_opt (hd_error (first_line s)) = false.
Proof.
  destruct s as [|x s]; simpl; auto.
  destruct (Ascii.eqb x nl); simpl; auto.
Qed.

(** ** Issue lists *)

Lemma in_when b i j : In j (when b i) <-> b = true /\ j = i.
Proof.
  destruct b; simpl; split; try tauto.
  - intros [<-|[]]; auto.
  - intros [_ ->]; auto.
  - intros [H _]; discriminate.
Qed.

Lemma no_error_spec l :
  no_error l = true <-> forall i, In i l -> severity i <> ERROR.
Proof.
  unfold no_error. rewrite negb_true_iff. split.
  - intros H i Hi E.
    assert (X : existsb is_error l = true).
    { apply existsb_exists. exists i. split; auto.
      unfold is_error. rewrite E. reflexivity. }
    congruence.
  - intros H. destruct (existsb is_error l) eqn:E; auto.
    apply existsb_exists in E as (i & Hi & Ei).
    exfalso. apply (H i Hi). unfold is_error in Ei.
    destruct (severity i); auto; discriminate.
Qed.

Lemma no_error_app a b : no_error (a ++ b) = no_error a && no_error b.
Proof. unfold no_error. rewrite existsb_app, negb_orb. reflexivity. Qed.

(** ** The syntax checker, case by case *)

Lemma validate_syntax_blank sql :
  blank sql = true -> validate_syntax sql = Result false [empty_issue].
Proof.
  intros H. apply strip_nil in H. unfold validate_syntax. rewrite H.
  reflexivity.
Qed.

Lemma validate_syntax_issues sql :
  blank sql = false ->
  issues (validate_syntax sql)
  = when (negb (count (t "(") (strip sql) =? count (t ")") (strip sql))%Z)
         (parens_issue (count (t "(") (strip sql)) (count (t ")") (strip sql)))
    ++ when (negb ((count [quote] (strip sql)
                    - count [backslash; quote] (strip sql)) mod 2 =? 0)%Z)
            quotes_issue
    ++ when (negb (re_search false re_terminator (strip sql))) semicolon_issue
    ++ when (re_search true re_select_no_from (strip sql)) select_issue.
Proof.
  intros H. unfold validate_syntax.
  destruct (strip sql) as [|x s] eqn:E; [|reflexivity].
  apply strip_nil in E. congruence.
Qed.

Lemma validate_syntax_valid sql :
  is_valid (validate_syntax sql) = (length (issues (validate_syntax sql)) =? 0).
Proof.
  unfold validate_syntax. destruct (strip sql); reflexivity.
Qed.

Lemma odd_mod2 n : negb (Z.of_nat n mod 2 =? 0)%Z = Nat.odd n.
Proof.
  rewrite <- Nat.negb_even. f_equal.
  destruct (Nat.even n) eqn:E.
  - apply Nat.even_spec in E as [k ->]. apply Z.eqb_eq.
    rewrite Nat2Z.inj_mul, Z.mul_comm. apply Z.mod_mul. lia.
  - apply Z.eqb_neq. intros H.
    assert (Hn : Nat.even n = true); [|congruence].
    apply Nat.even_spec. apply Z.mod_divide in H; [|lia].
    destruct H as [k Hk]. exists (Z.to_nat k). lia.
Qed.

(** C5. For every input that is empty or consists only of whitespace the syntax
    checker returns exactly one issue, the Error of category syntax with the
    empty-statement message, with [is_valid = false]: no other syntax check
    contributes.  The aggregator on the empty string returns that same single
    issue and [is_valid = false], always when the existence pass is off and
    whenever it returns at all. *)
Theorem C5_empty_statement (sql : text) (H : blank sql = true) :
  validate_syntax sql
  = Result false [Issue ERROR "syntax" "Empty SQL statement" None None None]
  /\ (forall w config,
        validate_sql w [] config false
        = Returned (Result false
            [Issue ERROR "syntax" "Empty SQL statement" None None None]))
  /\ (forall w config check_existence r,
        validate_sql w [] config check_existence = Returned r ->
        r = Result false
              [Issue ERROR "syntax" "Empty SQL statement" None None None]).
Proof.
  split; [|split].
  - apply validate_syntax_blank. exact H.
  - intros w config. reflexivity.
  - intros w config [|] r; [|intros E; injection E as <-; reflexivity].
    unfold validate_sql, validate_table_exists.
    destruct config as [c|]; [|destruct (from_env w) as [c|e]]; simpl;
      intros E; try discriminate; injection E as <-; reflexivity.
Qed.

Lemma C5_empty_statement_witness :
  blank (t "   ") = true
  /\ validate_syntax (t "   ")
     = Result false [Issue ERROR "syntax" "Empty SQL statement" None None None].
Proof.
  split; [reflexivity|].
  apply (C5_empty_statement (t "   ")). reflexivity.
Defined.

(** C6. The syntax checker reports the Error "Unbalanced single quotes"
    exactly when the number of single quotes of the input that are not
    directly preceded by a backslash is odd. *)
Theorem C6_unbalanced_quotes (sql : text) :
  (exists i, In i (issues (validate_syntax sql))
             /\ severity i = ERROR
             /\ message i = "Unbalanced single quotes"%string)
  <-> Nat.odd (unescaped_quotes None sql) = true.
Proof.
  destruct (blank sql) eqn:B.
  - rewrite (validate_syntax_blank _ B), (unescaped_quotes_blank _ _ B).
    split; [|discriminate].
    intros (i & [<-|[]] & _ & M). discriminate.
  - rewrite (validate_syntax_issues _ B), unescaped_quotes_count, odd_mod2,
      unescaped_quotes_strip.
    split.
    + intros (i & Hi & _ & M).
      rewrite !in_app_iff, !in_when in Hi.
      destruct Hi as [[_ ->]|[[H _]|[[_ ->]|[_ ->]]]]; auto;
        simpl in M; discriminate.
    + intros H. exists quotes_issue. rewrite !in_app_iff, !in_when. auto 6.
Qed.

(** ** Severities the checkers produce *)

Lemma security_issues sql i :
  In i (issues (validate_security sql)) ->
  (severity i = ERROR /\ exists pm, In pm SQL_INJECTION_PATTERNS
                                    /\ re_search true (fst pm) sql = true
                                    /\ i = injection_issue (snd pm))
  \/ (i = password_issue /\ re_search true re_password sql = true).
Proof.
  unfold validate_security. cbn [issues]. rewrite in_app_iff, in_flat_map.
  intros [(pm & Hpm & Hi)|Hi]; apply in_when in Hi as [Hs ->].
  - left. split; [reflexivity|]. eauto.
  - right. auto.
Qed.

Lemma performance_issues sql i :
  In i (issues (validate_performance sql)) ->
  (severity i = WARNING /\ i <> limit_issue)
  \/ (i = limit_issue
       /\ re_search true re_select_from sql = true
       /\ re_search true re_limit sql = false).
Proof.
  unfold validate_performance. cbn [issues].
  rewrite !in_app_iff, in_flat_map.
  intros [(pm & Hpm & Hi)|[Hi|Hi]]; apply in_when in Hi as [Hs ->].
  - left. split; [reflexivity|discriminate].
  - right. apply andb_prop in Hs as [H1 H2].
    rewrite negb_true_iff in H2. auto.
  - left. split; [reflexivity|discriminate].
Qed.

Lemma naming_issues sql i :
  In i (issues (validate_naming sql)) -> severity i = INFO.
Proof.
  unfold validate_naming. cbn [issues]. rewrite in_flat_map.
  intros (pattern & _ & Hi). apply in_flat_map in Hi as (ident & _ & Hi).
  apply in_when in Hi as [_ ->]. reflexivity.
Qed.

Lemma validate_sql_returned w sql config check_existence r :
  validate_sql w sql config check_existence = Returned r ->
  is_valid r = no_error (issues r).
Proof.
  unfold validate_sql. destruct check_existence.
  - destruct (validate_table_exists w sql config None) as [e|e]; simpl;
      [|discriminate].
    intros E. injection E as <-. reflexivity.
  - simpl. intros E. injection E as <-. reflexivity.
Qed.

Lemma validate_table_exists_valid w sql config sch r :
  validate_table_exists w sql config sch = Returned r ->
  is_valid r = (length (issues r) =? 0).
Proof.
  unfold validate_table_exists.
  destruct (match config with Some c => Returned c | None => from_env w end)
    as [c|e]; simpl; [|discriminate].
  destruct (referenced_tables sql); intros E; injection E as <-; reflexivity.
Qed.

Lemma length_zero_nil (A : Type) (l : list A) :
  (length l =? 0) = true -> l = [].
Proof. destruct l; simpl; [reflexivity|discriminate]. Qed.

(** ** Validity flags *)

(** C1, as stated, fails: on the injection sample the security checker
    returns [is_valid = true] together with an Error issue. *)
Lemma C1_counterexample :
  ~ (is_valid (validate_security sql_injection) = true
     <-> forall i, In i (issues (validate_security sql_injection)) ->
                   severity i <> ERROR).
Proof.
  intros [H _].
  apply (H eq_refl (injection_issue "Potential OR-based injection")).
  - vm_compute. left. reflexivity.
  - reflexivity.
Qed.

(** C1, amended.  The result of the aggregator is valid exactly when none of
    its issues is an Error, and so are the results of the performance and
    naming checkers, which are always valid and never report an Error.  The
    security checker always returns [is_valid = true], whatever it reports.
    A valid result of the syntax checker or of the existence checker holds no
    Error. *)
Theorem C1_validity_flags :
  (forall w sql config check_existence r,
     validate_sql w sql config check_existence = Returned r ->
     (is_valid r = true <-> forall i, In i (issues r) -> severity i <> ERROR))
  /\ (forall sql,
        is_valid (validate_performance sql) = true
        /\ forall i, In i (issues (validate_performance sql)) ->
                     severity i <> ERROR)
  /\ (forall sql,
        is_valid (validate_naming sql) = true
        /\ forall i, In i (issues (validate_naming sql)) -> severity i <> ERROR)
  /\ (forall sql, is_valid (validate_security sql) = true)
  /\ (forall sql,
        is_valid (validate_syntax sql) = true ->
        forall i, In i (issues (validate_syntax sql)) -> severity i <> ERROR)
  /\ (forall w sql config sch r,
        validate_table_exists w sql config sch = Returned r ->
        is_valid r = true ->
        forall i, In i (issues r) -> severity i <> ERROR).
Proof.
  repeat split.
  - rewrite (validate_sql_returned _ _ _ _ H). apply no_error_spec.
  - rewrite (validate_sql_returned _ _ _ _ H). apply no_error_spec.
  - intros i Hi.
    destruct (performance_issues _ _ Hi) as [[E _]|[-> _]];
      [rewrite E|]; discriminate.
  - intros i Hi. rewrite (naming_issues _ _ Hi). discriminate.
  - intros sql V i Hi. rewrite validate_syntax_valid in V.
    apply length_zero_nil in V. rewrite V in Hi. destruct Hi.
  - intros w sql config sch r E V i Hi.
    rewrite (validate_table_exists_valid _ _ _ _ E) in V.
    apply length_zero_nil in V. rewrite V in Hi. destruct Hi.
Qed.

Lemma C1_validity_flags_witness :
  validate_sql offline_world sql_plain None false
  = Returned (Result true [semicolon_issue; limit_issue])
  /\ (is_valid (Result true [semicolon_issue; limit_issue]) = true
      <-> forall i, In i (issues (Result true [semicolon_issue; limit_issue])) ->
                    severity i <> ERROR).
Proof.
  split; [vm_compute; reflexivity|].
  apply (proj1 C1_validity_flags offline_world sql_plain None false).
  vm_compute; reflexivity.
Defined.

(** ** The aggregator *)

Lemma validate_sql_static w sql config :
  validate_sql w sql config false
  = Returned
      (Result
         (no_error (issues (validate_syntax sql) ++ issues (validate_security sql)
                    ++ issues (validate_performance sql)
                    ++ issues (validate_naming sql)))
         (issues (validate_syntax sql) ++ issues (validate_security sql)
          ++ issues (validate_performance sql) ++ issues (validate_naming sql))).
Proof. reflexivity. Qed.

Lemma validate_sql_existence w sql config :
  validate_sql w sql config true
  = (e <- validate_table_exists w sql config None ;;
     Returned
       (Result
          (no_error ((issues (validate_syntax sql)
                      ++ issues (validate_security sql)
                      ++ issues (validate_performance sql)
                      ++ issues (validate_naming sql)) ++ issues e))
          ((issues (validate_syntax sql) ++ issues (validate_security sql)
            ++ issues (validate_performance sql)
            ++ issues (validate_naming sql)) ++ issues e))).
Proof.
  unfold validate_sql.
  destruct (validate_table_exists w sql config None); reflexivity.
Qed.

(** C3. The issues of the aggregator are the issues of the syntax, security,
    performance and naming checkers, concatenated in that order, followed by
    those of the existence checker when that pass is enabled; its validity
    flag is "no Error in that list".  Without the existence pass the call
    always returns; with it, the call returns when the existence checker
    does and raises what it raises.  The flag is not the conjunction of the
    flags of the checkers: the two differ both ways. *)
Theorem C3_aggregation :
  (forall w sql config,
     let checks :=
       issues (validate_syntax sql) ++ issues (validate_security sql)
       ++ issues (validate_performance sql) ++ issues (validate_naming sql) in
     validate_sql w sql config false
     = Returned (Result (no_error checks) checks)
     /\ (forall e, validate_table_exists w sql config None = Returned e ->
           validate_sql w sql config true
           = Returned (Result (no_error (checks ++ issues e))
                              (checks ++ issues e)))
     /\ (forall x, validate_table_exists w sql config None = Raised x ->
           validate_sql w sql config true = Raised x))
  /\ (exists sql r,
        validate_sql offline_world sql None false = Returned r
        /\ is_valid r = true
        /\ is_valid (validate_syntax sql) && is_valid (validate_security sql)
           && is_valid (validate_performance sql)
           && is_valid (validate_naming sql) = false)
  /\ (exists sql r,
        validate_sql offline_world sql None false = Returned r
        /\ is_valid r = false
        /\ is_valid (validate_syntax sql) && is_valid (validate_security sql)
           && is_valid (validate_performance sql)
           && is_valid (validate_naming sql) = true).
Proof.
  split; [|split].
  - intros w sql config checks. split; [|split].
    + apply validate_sql_static.
    + intros e E. rewrite validate_sql_existence, E. reflexivity.
    + intros x E. rewrite validate_sql_existence, E. reflexivity.
  - exists sql_limited, (Result true [semicolon_issue]).
    vm_compute. auto.
  - exists sql_injection_terminated. eexists. split; [reflexivity|].
    vm_compute. auto.
Qed.

Lemma C3_aggregation_witness :
  validate_table_exists offline_world sql_plain None None
  = Returned (Result false [unverified_issue "connection refused"])
  /\ validate_sql offline_world sql_plain None true
     = Returned
         (Result true
            [semicolon_issue; limit_issue;
             unverified_issue "connection refused"]).
Proof.
  split; [vm_compute; reflexivity|].
  destruct (proj1 C3_aggregation offline_world sql_plain None) as (_ & H & _).
  rewrite (H (Result false [unverified_issue "connection refused"]));
    vm_compute; reflexivity.
Defined.

(** ** The existence pass when the catalogue cannot be read *)

(** The catalogue is consulted only for a statement that refers to a
    table: without one the checker returns before connecting, whatever the
    catalogue would answer. *)
Lemma validate_table_exists_no_table (w : World) (sql : text)
    (config : option KingbaseConfig) (schema_arg : option string)
    (c : KingbaseConfig) :
  match config with Some c' => Returned c' | None => from_env w end
  = Returned c ->
  referenced_tables sql = [] ->
  validate_table_exists w sql config schema_arg = Returned (Result true []).
Proof.
  intros Hc Ht. unfold validate_table_exists. rewrite Hc. cbn [bind].
  rewrite Ht. reflexivity.
Qed.

(** C2.  When the existence pass is enabled and the catalogue lookup
    raises (the lookup is made as soon as the statement refers to a table),
    the existence checker returns exactly one issue, a Warning of category
    existence that carries the text of the exception, and no Error,
    whichever tables the statement refers to; the aggregator still returns,
    with the issues of the other four passes intact, in their order, followed
    by that Warning, and with the validity those four passes give. *)
Theorem C2_catalog_failure (w : World) (sql : text)
    (config : option KingbaseConfig) (c : KingbaseConfig) (e : string) :
  match config with Some c' => Returned c' | None => from_env w end
  = Returned c ->
  referenced_tables sql <> [] ->
  pg_tables w c (schema c) = Raised e ->
  let warning :=
    Issue WARNING "existence" ("Could not verify table existence: " ++ e)
      None None (Some "Ensure database connection is working"%string) in
  let checks :=
    issues (validate_syntax sql) ++ issues (validate_security sql)
    ++ issues (validate_performance sql) ++ issues (validate_naming sql) in
  validate_table_exists w sql config None = Returned (Result false [warning])
  /\ validate_sql w sql config true
     = Returned (Result (no_error checks) (checks ++ [warning])).
Proof.
  intros Hc Ht He warning checks.
  assert (E : validate_table_exists w sql config None
              = Returned (Result false [warning])).
  { unfold validate_table_exists. rewrite Hc. simpl.
    destruct (referenced_tables sql); [congruence|].
    rewrite He. reflexivity. }
  split; [exact E|].
  rewrite validate_sql_existence, E. simpl.
  rewrite no_error_app. unfold checks. simpl. rewrite andb_true_r.
  reflexivity.
Qed.

Lemma C2_catalog_failure_witness :
  validate_table_exists offline_world sql_plain None None
  = Returned
      (Result false
         [Issue WARNING "existence"
            "Could not verify table existence: connection refused"
            None None (Some "Ensure database connection is working"%string)])
  /\ validate_sql offline_world sql_plain None true
     = Returned
         (Result true
            [semicolon_issue; limit_issue;
             Issue WARNING "existence"
               "Could not verify table existence: connection refused"
               None None (Some "Ensure database connection is working"%string)]).
Proof.
  assert (Ht : referenced_tables sql_plain <> [])
    by (vm_compute; discriminate).
  destruct (C2_catalog_failure offline_world sql_plain None
              (c := default_config) (e := "connection refused")
              eq_refl Ht eq_refl) as [H1 H2].
  split; [exact H1|]. rewrite H2. vm_compute. reflexivity.
Defined.

(** ** The statement terminator *)

Lemma lastp_some_split s : forall p c,
  s <> [] -> lastp p s = Some c -> exists a, s = a ++ [c].
Proof.
  induction s as [|x s IH]; intros p c N H; [congruence|].
  destruct s as [|y s].
  - simpl in H. injection H as ->. exists []. reflexivity.
  - destruct (IH (Some x) c) as (a & E); [congruence|exact H|].
    exists (x :: a). rewrite E. reflexivity.
Qed.

(** [;\s*$] finds a semicolon followed by whitespace only. *)
Lemma re_terminator_spec s :
  re_search false re_terminator s = true
  <-> exists a tail, s = a ++ semicolon :: tail /\ blank tail = true.
Proof.
  rewrite re_search_spec. unfold re_terminator. cbn [seqs]. split.
  - intros (a & w & b & -> & w1 & w23 & -> & (x & -> & Hx)
            & w2 & w3 & -> & H2 & -> & Hb).
    apply chr_eq_exact in Hx. subst x.
    apply (mt_star_cls false is_space) in H2.
    exists a, (w2 ++ b). rewrite app_nil_r. split; [reflexivity|].
    rewrite blank_app. unfold blank at 1. rewrite H2.
    destruct Hb as [-> | ->]; reflexivity.
  - intros (a & tail & -> & B).
    exists a, (semicolon :: tail), []. rewrite app_nil_r. split; auto.
    exists [semicolon], tail. split; auto. split.
    + exists semicolon. split; reflexivity.
    + exists tail, []. rewrite app_nil_r. split; auto. split.
      * apply (mt_star_cls false is_space). exact B.
      * simpl. auto.
Qed.

(** On the cleaned text the terminator is found exactly when the last
    character is a semicolon. *)
Lemma re_terminator_strip sql :
  re_search false re_terminator (strip sql) = true
  <-> lastp None (strip sql) = Some semicolon.
Proof.
  rewrite re_terminator_spec. split.
  - intros (a & tail & E & B). rewrite E, lastp_app. simpl.
    destruct tail as [|y tail] using rev_ind; [reflexivity|].
    exfalso. rewrite blank_app in B. apply andb_prop in B as [_ B].
    unfold blank in B. simpl in B. rewrite andb_true_r in B.
    assert (L : lastp None (strip sql) = Some y).
    { rewrite E, app_comm_cons, app_assoc. apply lastp_snoc. }
    apply strip_last in L. congruence.
  - intros H. destruct (strip sql) as [|x s] eqn:E; [discriminate|].
    destruct (lastp_some_split (s := x :: s) None) with (c := semicolon)
      as (a & Ea); [congruence|exact H|].
    exists a, []. auto.
Qed.

Lemma no_error_remove x l :
  is_error x = false ->
  no_error (remove issue_eq_dec x l) = no_error l.
Proof.
  intros Hx. unfold no_error. f_equal.
  induction l as [|y l IH]; simpl; auto.
  destruct (issue_eq_dec x y) as [<-|N]; simpl.
  - rewrite Hx. exact IH.
  - rewrite IH. reflexivity.
Qed.

Lemma syntax_info_issue sql i :
  In i (issues (validate_syntax sql)) -> severity i = INFO ->
  i = semicolon_issue.
Proof.
  destruct (blank sql) eqn:B.
  - rewrite (validate_syntax_blank _ B). intros [<-|[]]. discriminate.
  - rewrite (validate_syntax_issues _ B), !in_app_iff, !in_when.
    intros [[_ ->]|[[_ ->]|[[_ ->]|[_ ->]]]]; auto; discriminate.
Qed.

Lemma semicolon_issue_emitted sql :
  In semicolon_issue (issues (validate_syntax sql))
  <-> blank sql = false /\ lastp None (strip sql) <> Some semicolon.
Proof.
  destruct (blank sql) eqn:B.
  - rewrite (validate_syntax_blank _ B). split.
    + intros [E|[]]. discriminate.
    + intros [E _]. discriminate.
  - rewrite (validate_syntax_issues _ B), !in_app_iff, !in_when.
    pose proof (re_terminator_strip sql) as T.
    destruct (re_search false re_terminator (strip sql)); split.
    + intros [[_ E]|[[_ E]|[[H _]|[_ E]]]]; discriminate.
    + intros [_ H]. exfalso. apply H, T. reflexivity.
    + intros _. split; auto. intros H. apply T in H. discriminate.
    + intros _. auto.
Qed.

Lemma validate_sql_issues_syntax w sql config check_existence r i :
  validate_sql w sql config check_existence = Returned r ->
  In i (issues (validate_syntax sql)) -> In i (issues r).
Proof.
  intros E Hi. destruct check_existence.
  - rewrite validate_sql_existence in E.
    destruct (validate_table_exists w sql config None); [|discriminate].
    simpl in E. injection E as <-. cbn [issues].
    rewrite !in_app_iff. auto.
  - rewrite validate_sql_static in E. injection E as <-. cbn [issues].
    rewrite !in_app_iff. auto.
Qed.

(** C4, as stated, fails twice.  A whitespace-only input is non-empty and
    does not end in a semicolon, yet the checker stops at the
    empty-statement Error and emits no note.  And on a statement whose only
    finding is the missing terminator, the note alone makes the syntax
    checker's own flag false. *)
Lemma C4_counterexample :
  (sql_blank <> [] /\ lastp None sql_blank <> Some semicolon
   /\ ~ In semicolon_issue (issues (validate_syntax sql_blank)))
  /\ (sql_plain <> [] /\ lastp None sql_plain <> Some semicolon
      /\ validate_syntax sql_plain = Result false [semicolon_issue]).
Proof.
  split; split; try discriminate; split; try discriminate.
  - rewrite semicolon_issue_emitted. intros [B _]. discriminate.
  - vm_compute. reflexivity.
Qed.

(** C4, amended.  For every input whose text, surrounding whitespace
    removed, is non-empty and does not end in a semicolon, the syntax
    checker emits the missing-semicolon note, an Info of category style
    that is never reported with another severity; the note is part of the
    aggregator's result and does not affect the aggregator's validity flag,
    which is the one computed from the issues other than the note. *)
Theorem C4_missing_terminator (sql : text) :
  blank sql = false -> lastp None (strip sql) <> Some semicolon ->
  In semicolon_issue (issues (validate_syntax sql))
  /\ severity semicolon_issue = INFO
  /\ category semicolon_issue = "style"%string
  /\ message semicolon_issue = "Missing semicolon at end of statement"%string
  /\ (forall i, In i (issues (validate_syntax sql)) ->
                message i = message semicolon_issue -> severity i = INFO)
  /\ (forall w config check_existence r,
        validate_sql w sql config check_existence = Returned r ->
        In semicolon_issue (issues r)
        /\ is_valid r
           = no_error (remove issue_eq_dec semicolon_issue (issues r))).
Proof.
  intros B L.
  assert (Hin : In semicolon_issue (issues (validate_syntax sql)))
    by (apply semicolon_issue_emitted; auto).
  repeat split; auto.
  - intros i Hi M. revert Hi.
    rewrite (validate_syntax_issues _ B), !in_app_iff, !in_when.
    intros [[_ ->]|[[_ ->]|[[_ ->]|[_ ->]]]]; auto;
      simpl in M; discriminate.
  - eapply validate_sql_issues_syntax; eauto.
  - rewrite no_error_remove by reflexivity.
    eapply validate_sql_returned; eauto.
Qed.

Lemma C4_missing_terminator_witness :
  In semicolon_issue (issues (validate_syntax sql_plain))
  /\ validate_sql offline_world sql_plain None false
     = Returned (Result true [semicolon_issue; limit_issue]).
Proof.
  split.
  - apply (C4_missing_terminator sql_plain); [reflexivity|].
    vm_compute. discriminate.
  - vm_compute. reflexivity.
Defined.

(** C10. For every non-empty input that does not end in a semicolon, an Info
    issue of the syntax checker is the missing-semicolon note and carries the
    category style, which is none of syntax, security, performance, naming,
    existence.  The note is emitted whenever the text, surrounding whitespace
    removed, is non-empty and lacks the final semicolon, so the issue list
    of the syntax checker, and of the aggregator, can hold a category
    outside the documented set. *)
Theorem C10_style_category :
  (forall sql, sql <> [] -> lastp None sql <> Some semicolon ->
     forall i, In i (issues (validate_syntax sql)) -> severity i = INFO ->
       category i = "style"%string
       /\ ~ In (category i) documented_categories)
  /\ (forall sql, blank sql = false ->
        lastp None (strip sql) <> Some semicolon ->
        exists i, In i (issues (validate_syntax sql))
                  /\ severity i = INFO
                  /\ ~ In (category i) documented_categories)
  /\ (exists sql r i,
        sql <> [] /\ lastp None sql <> Some semicolon
        /\ validate_sql offline_world sql None false = Returned r
        /\ In i (issues r) /\ category i = "style"%string
        /\ ~ In (category i) documented_categories).
Proof.
  assert (D : ~ In (category semicolon_issue) documented_categories).
  { simpl. intros [H|[H|[H|[H|[H|[]]]]]]; discriminate. }
  split; [|split].
  - intros sql _ _ i Hi S. apply syntax_info_issue in Hi; auto. subst i.
    split; [reflexivity|exact D].
  - intros sql B L. exists semicolon_issue. split; [|split]; auto.
    apply semicolon_issue_emitted. auto.
  - exists sql_plain, (Result true [semicolon_issue; limit_issue]),
      semicolon_issue.
    repeat split; try discriminate; auto.
    simpl. auto.
Qed.

Lemma C10_style_category_witness :
  sql_plain <> [] /\ lastp None sql_plain <> Some semicolon
  /\ In semicolon_issue (issues (validate_syntax sql_plain))
  /\ category semicolon_issue = "style"%string
  /\ ~ In (category semicolon_issue) documented_categories.
Proof.
  assert (N : sql_plain <> []) by discriminate.
  assert (L : lastp None sql_plain <> Some semicolon)
    by (vm_compute; discriminate).
  assert (Hin : In semicolon_issue (issues (validate_syntax sql_plain)))
    by (vm_compute; left; reflexivity).
  repeat split; auto;
    apply (proj1 C10_style_category sql_plain N L semicolon_issue Hin eq_refl).
Defined.

(** ** Hardcoded credentials *)

(** The credential pattern can only match a text that holds a double
    quote: its last element is that character. *)
Lemma re_password_needs_dquote sql :
  re_search true re_password sql = true -> In dquote sql.
Proof.
  rewrite re_search_spec. unfold re_password. cbn [seqs].
  intros (a & w & b & -> & w1 & r1 & -> & _ & w2 & r2 & -> & _
          & w3 & r3 & -> & _ & w4 & r4 & -> & _ & w5 & r5 & -> & _
          & w6 & w7 & -> & _ & x & -> & Hx).
  apply chr_eq_dquote in Hx. subst x.
  rewrite !in_app_iff. simpl. auto 20.
Qed.

(** C7 does not hold of the code.  On the statement
    [SELECT * FROM users WHERE password = 'secret123'] the security checker
    reports nothing; more generally it reports the hardcoded-password
    Warning on no text free of double quotes, although a single-quoted
    literal assigned to password, passwd or pwd is what the check is after.
    The Warning does appear when the literal is closed by a double quote
    in place of the single quote. *)
Theorem C7_password_literal_not_flagged :
  validate_security sql_password = Result true []
  /\ (forall sql, ~ In dquote sql ->
        forall i, In i (issues (validate_security sql)) ->
                  severity i <> WARNING)
  /\ In password_issue (issues (validate_security sql_password_dquote)).
Proof.
  split; [vm_compute; reflexivity|]. split.
  - intros sql N i Hi.
    destruct (security_issues _ _ Hi) as [[E _]|[_ H]].
    + rewrite E. discriminate.
    + exfalso. apply N, re_password_needs_dquote, H.
  - vm_compute. left. reflexivity.
Qed.

(** ** SELECT, FROM and LIMIT *)

(** [SELECT.+FROM] finds SELECT, then at least one character and no
    newline, then FROM, in any case and inside longer words too. *)
Lemma re_select_from_spec s :
  re_search true re_select_from s = true
  <-> exists a S m F b,
        s = a ++ S ++ m ++ F ++ b
        /\ same_chars true (t "SELECT") S = true
        /\ m <> [] /\ no_newline m = true
        /\ same_chars true (t "FROM") F = true.
Proof.
  rewrite re_search_spec. unfold re_select_from. cbn [seqs]. split.
  - intros (a & w & b & -> & w1 & w23 & -> & H1 & w2 & w3 & -> & H2 & H3).
    apply mt_lit_chars in H1. apply mt_lit_chars in H3.
    apply mt_plus_cls in H2 as [N H2].
    exists a, w1, w2, w3, b. rewrite <- !app_assoc. auto.
  - intros (a & S & m & F & b & -> & HS & N & Hm & HF).
    exists a, (S ++ m ++ F), b. rewrite <- !app_assoc. split; auto.
    exists S, (m ++ F). split; auto. split.
    + apply mt_lit_chars. exact HS.
    + exists m, F. split; auto. split.
      * apply mt_plus_cls. auto.
      * apply mt_lit_chars. exact HF.
Qed.

Lemma re_limit_spec s : re_search true re_limit s = contains_keyword "LIMIT" s.
Proof.
  unfold re_limit. apply re_search_keyword; [discriminate|reflexivity].
Qed.

(** C8, as stated, fails: the statement
    [DELETE FROM logs WHERE id IN (SELECT 1)] holds the keywords SELECT and
    FROM and no LIMIT, and so does a SELECT whose FROM is on the next line;
    the performance checker reports nothing on either. *)
Lemma C8_counterexample :
  (contains_keyword "SELECT" sql_delete_subquery = true
   /\ contains_keyword "FROM" sql_delete_subquery = true
   /\ contains_keyword "LIMIT" sql_delete_subquery = false
   /\ issues (validate_performance sql_delete_subquery) = [])
  /\ (contains_keyword "SELECT" sql_two_lines = true
      /\ contains_keyword "FROM" sql_two_lines = true
      /\ contains_keyword "LIMIT" sql_two_lines = false
      /\ issues (validate_performance sql_two_lines) = []).
Proof. vm_compute. auto 10. Qed.

(** C8, amended.  The performance checker emits the Info issue about the
    absent LIMIT clause exactly when the text holds SELECT followed, after
    at least one character and before any newline, by FROM (both in any
    case, not necessarily as whole words) and holds no LIMIT keyword. *)
Theorem C8_missing_limit (sql : text) :
  severity limit_issue = INFO
  /\ (In limit_issue (issues (validate_performance sql))
      <-> (exists a S m F b,
             sql = a ++ S ++ m ++ F ++ b
             /\ same_chars true (t "SELECT") S = true
             /\ m <> [] /\ no_newline m = true
             /\ same_chars true (t "FROM") F = true)
          /\ contains_keyword "LIMIT" sql = false).
Proof.
  split; [reflexivity|].
  rewrite <- re_select_from_spec, <- re_limit_spec. split.
  - intros Hi. destruct (performance_issues _ _ Hi) as [[_ N]|[_ H]];
      [congruence|exact H].
  - intros [H1 H2]. unfold validate_performance. cbn [issues].
    rewrite !in_app_iff, !in_when. right. left.
    rewrite H1, H2. auto.
Qed.

Lemma C8_missing_limit_witness :
  In limit_issue (issues (validate_performance sql_plain)).
Proof.
  apply (proj2 (C8_missing_limit sql_plain)). split.
  - exists [], (t "SELECT"), (t " id "), (t "FROM"), (t " users").
    repeat split; try reflexivity. discriminate.
  - vm_compute. reflexivity.
Defined.

(** ** SELECT without FROM *)

(** When the lookahead [.*\bFROM\b] matches at a position, the first line
    of the text after that position holds the keyword FROM. *)
Lemma re_from_ahead_keyword p post :
  (exists w1 s1, post = w1 ++ s1 /\ mt true re_from_ahead p w1 s1) ->
  keyword_from (t "FROM") p (first_line post) = true.
Proof.
  unfold re_from_ahead. cbn [seqs].
  intros (w1 & s1 & -> & d & w2 & -> & Hd & H).
  apply (mt_star_cls true) in Hd.
  apply (mt_keyword "FROM") in H as (HF & Hp & Hs);
    [|discriminate|reflexivity].
  assert (W : forallb is_word w2 = true)
    by (eapply same_chars_word; [|exact HF]; reflexivity).
  rewrite <- app_assoc, first_line_app by exact Hd.
  rewrite first_line_app by (apply word_no_newline; exact W).
  apply keyword_from_intro; auto. apply first_line_head. exact Hs.
Qed.

(** The rule of the SELECT check: SELECT, one whitespace character, and
    no FROM keyword from there to the end of the line. *)
Lemma re_select_no_from_found pre S w post :
  same_chars true (t "SELECT") S = true ->
  is_space w = true ->
  keyword_from (t "FROM") (Some w) (first_line post) = false ->
  re_search true re_select_no_from (pre ++ S ++ w :: post) = true.
Proof.
  intros HS Hw HF. apply re_search_spec.
  exists pre, (S ++ [w]), post. rewrite <- app_assoc. split; auto.
  unfold re_select_no_from. cbn [seqs].
  exists S, [w]. split; auto. split; [apply mt_lit_chars; exact HS|].
  exists [w], []. split; auto. split.
  - apply mt_plus_cls. simpl. rewrite Hw. split; [discriminate|reflexivity].
  - split; auto. intros H.
    apply re_from_ahead_keyword in H. cbn [lastp] in H. congruence.
Qed.




(** * Further properties of the module *)

(** ** Parentheses *)

Lemma count_char_cons c x s :
  count [c] (x :: s) = ((if Ascii.eqb c x then 1 else 0) + count [c] s)%Z.
Proof.
  unfold count. cbn [count_from starts_with length Nat.sub].
  rewrite andb_true_r. destruct (Ascii.eqb c x); reflexivity.
Qed.

Lemma count_char_occ c s :
  count [c] s = Z.of_nat (count_occ ascii_dec s c).
Proof.
  induction s as [|x s IH]; [reflexivity|].
  rewrite count_char_cons, IH. simpl.
  destruct (ascii_dec x c) as [->|N].
  - rewrite Ascii.eqb_refl. lia.
  - destruct (Ascii.eqb_spec c x); [congruence|]. lia.
Qed.

Lemma count_occ_blank c s :
  is_space c = false -> blank s = true -> count_occ ascii_dec s c = 0.
Proof.
  intros Hc. induction s as [|x s IH]; [reflexivity|].
  unfold blank. simpl. intros H. apply andb_prop in H as [Hx H].
  destruct (ascii_dec x c) as [->|N]; [congruence|]. apply IH, H.
Qed.

(** Removing the surrounding whitespace keeps the occurrences of every
    character that is not whitespace. *)
Lemma count_occ_strip c s :
  is_space c = false ->
  count_occ ascii_dec (strip s) c = count_occ ascii_dec s c.
Proof.
  intros Hc. destruct (strip_split s) as (l & r & E & Bl & Br).
  rewrite E at 2. rewrite !count_occ_app.
  rewrite (count_occ_blank _ _ Hc Bl), (count_occ_blank _ _ Hc Br). lia.
Qed.

(** X1. The syntax checker reports unbalanced parentheses exactly when the
    input holds different numbers of opening and closing parentheses; the
    issue it reports then is the Error whose message spells these two
    numbers, and no other issue carries the advice to match parentheses. *)
Theorem syntax_parentheses (sql : text) (i : ValidationIssue) :
  In i (issues (validate_syntax sql))
  /\ suggestion i
     = Some "Ensure all opening parentheses have matching closing parentheses"%string
  <-> i = parens_issue (Z.of_nat (count_occ ascii_dec sql "("%char))
                       (Z.of_nat (count_occ ascii_dec sql ")"%char))
      /\ count_occ ascii_dec sql "("%char <> count_occ ascii_dec sql ")"%char.
Proof.
  destruct (blank sql) eqn:B.
  - rewrite (validate_syntax_blank _ B). split.
    + intros [[<-|[]] E]. discriminate.
    + intros [_ N]. exfalso. apply N.
      rewrite !(fun c H => count_occ_blank c sql H B) by reflexivity.
      reflexivity.
  - rewrite (validate_syntax_issues _ B), !in_app_iff, !in_when.
    change (t "(") with ["("%char]. change (t ")") with [")"%char].
    rewrite !count_char_occ, !count_occ_strip by reflexivity.
    rewrite negb_true_iff, Z.eqb_neq. split.
    + intros [[[N ->]|[[_ ->]|[[_ ->]|[_ ->]]]] E]; try discriminate.
      split; [reflexivity|]. intros H. apply N. rewrite H. reflexivity.
    + intros [-> N]. split; [|reflexivity]. left. split; [|reflexivity].
      intros H. apply N. apply Nat2Z.inj. exact H.
Qed.

(** ** The exact rule of the SELECT check *)

Lemma first_line_split post :
  exists tail, post = first_line post ++ tail
               /\ is_word_opt (hd_error tail) = false
               /\ no_newline (first_line post) = true.
Proof.
  induction post as [|x post (tail & E & Hd & Hn)]; simpl.
  - exists []. auto.
  - destruct (Ascii.eqb_spec x nl) as [->|N].
    + exists (nl :: post). repeat split.
    + exists tail. simpl. rewrite <- E. repeat split; auto.
      unfold no_newline in *. simpl. rewrite Hn.
      destruct (Ascii.eqb_spec x nl); [congruence|reflexivity].
Qed.

Lemma no_newline_app a b :
  no_newline (a ++ b) = no_newline a && no_newline b.
Proof. apply forallb_app. Qed.

Lemma hd_error_app_word (rest tail : text) :
  is_word_opt (hd_error rest) = false ->
  is_word_opt (hd_error tail) = false ->
  is_word_opt (hd_error (rest ++ tail)) = false.
Proof. destruct rest; simpl; auto. Qed.

(** Conversely to [re_from_ahead_keyword]: a FROM keyword on the first
    line is found by the lookahead. *)
Lemma re_from_ahead_of_keyword p post :
  keyword_from (t "FROM") p (first_line post) = true ->
  exists w1 s1, post = w1 ++ s1 /\ mt true re_from_ahead p w1 s1.
Proof.
  intros H. destruct (first_line_split post) as (tail & E & Ht & Hn).
  apply keyword_from_elim in H as (d & F & rest & EL & Hp & HF & Hr).
  rewrite EL in Hn. rewrite no_newline_app in Hn.
  apply andb_prop in Hn as [Hd _].
  exists (d ++ F), (rest ++ tail). split.
  - rewrite E at 1. rewrite EL, <- !app_assoc. reflexivity.
  - unfold re_from_ahead. cbn [seqs]. exists d, F. split; auto. split.
    + apply (mt_star_cls true). exact Hd.
    + apply (mt_keyword "FROM"); [discriminate|reflexivity|].
      repeat split; auto. apply hd_error_app_word; auto.
Qed.

(** [SELECT\s+(?!.*\bFROM\b)] matches exactly where SELECT is followed by
    a run of whitespace after which the line holds no FROM keyword. *)
Lemma re_select_no_from_spec s :
  re_search true re_select_no_from s = true
  <-> exists pre S sp post,
        s = pre ++ S ++ sp ++ post
        /\ same_chars true (t "SELECT") S = true
        /\ sp <> [] /\ blank sp = true
        /\ keyword_from (t "FROM") (lastp None (pre ++ S ++ sp))
             (first_line post) = false.
Proof.
  rewrite re_search_spec. unfold re_select_no_from. cbn [seqs]. split.
  - intros (a & w & b & -> & w1 & w23 & -> & H1 & w2 & w3 & -> & H2
            & -> & N).
    apply mt_lit_chars in H1. apply mt_plus_cls in H2 as [N2 H2].
    exists a, w1, w2, b. rewrite app_nil_r, <- !app_assoc.
    repeat split; auto. rewrite !lastp_app.
    destruct (keyword_from (t "FROM") (lastp (lastp (lastp None a) w1) w2)
                (first_line b)) eqn:K; auto.
    exfalso. apply N. apply re_from_ahead_of_keyword. exact K.
  - intros (pre & S & sp & post & -> & HS & N & B & K).
    exists pre, (S ++ sp), post. rewrite <- !app_assoc. split; auto.
    exists S, sp. split; auto. split; [apply mt_lit_chars; exact HS|].
    exists sp, []. rewrite app_nil_r. split; auto. split.
    + apply mt_plus_cls. auto.
    + split; auto. intros H. apply re_from_ahead_keyword in H.
      rewrite !lastp_app in K. congruence.
Qed.

(** X2. The Error "SELECT without FROM clause" is reported exactly when the
    cleaned text holds SELECT (in any case, also as the end of a longer
    word) followed by a run of whitespace such that no FROM keyword lies
    between the end of that run and the next newline. *)
Theorem syntax_select_rule (sql : text) :
  In select_issue (issues (validate_syntax sql))
  <-> exists pre S sp post,
        strip sql = pre ++ S ++ sp ++ post
        /\ same_chars true (t "SELECT") S = true
        /\ sp <> [] /\ blank sp = true
        /\ keyword_from (t "FROM") (lastp None (pre ++ S ++ sp))
             (first_line post) = false.
Proof.
  rewrite <- re_select_no_from_spec. destruct (blank sql) eqn:B.
  - rewrite (validate_syntax_blank _ B).
    apply strip_nil in B. rewrite B. split.
    + intros [E|[]]. discriminate.
    + intros H. discriminate.
  - rewrite (validate_syntax_issues _ B), !in_app_iff, !in_when. split.
    + intros [[_ E]|[[_ E]|[[_ E]|[H _]]]]; try discriminate. exact H.
    + intros H. auto 6.
Qed.

Lemma keyword_in_context kw l s r p :
  keyword_from kw p s = true ->
  is_word_opt (lastp None l) = false -> p = lastp None l ->
  is_word_opt (hd_error r) = false ->
  keyword_from kw None (l ++ s ++ r) = true.
Proof.
  intros H Hl -> Hr.
  apply keyword_from_elim in H as (d & F & rest & -> & Hp & HF & Hrest).
  replace (l ++ (d ++ F ++ rest) ++ r) with ((l ++ d) ++ F ++ (rest ++ r))
    by (rewrite <- !app_assoc; reflexivity).
  apply keyword_from_intro; auto.
  - rewrite lastp_app. exact Hp.
  - apply hd_error_app_word; auto.
Qed.

Lemma select_issue_found sql :
  re_search true re_select_no_from (strip sql) = true ->
  In select_issue (issues (validate_syntax sql)).
Proof.
  intros H. destruct (blank sql) eqn:B.
  - apply strip_nil in B. rewrite B in H. discriminate.
  - rewrite (validate_syntax_issues _ B), !in_app_iff, !in_when. auto 6.
Qed.

(** X3. A statement that holds SELECT followed by whitespace and no FROM
    keyword at all, such as a constant select, always gets the Error
    "SELECT without FROM clause", and its syntax result is invalid. *)
Theorem syntax_select_constant (sql pre S post : text) (w : ascii) :
  strip sql = pre ++ S ++ w :: post ->
  same_chars true (t "SELECT") S = true ->
  is_space w = true ->
  contains_keyword "FROM" (strip sql) = false ->
  In select_issue (issues (validate_syntax sql))
  /\ is_valid (validate_syntax sql) = false.
Proof.
  intros E HS Hw HF.
  assert (Hin : In select_issue (issues (validate_syntax sql))).
  { apply select_issue_found. rewrite E.
    apply re_select_no_from_found; auto.
    destruct (keyword_from (t "FROM") (Some w) (first_line post)) eqn:K; auto.
    rewrite <- HF, E. symmetry.
    destruct (first_line_split post) as (tail & Ep & Ht & _).
    rewrite Ep at 1.
    replace (pre ++ S ++ w :: first_line post ++ tail)
      with ((pre ++ S ++ [w]) ++ first_line post ++ tail)
      by (rewrite <- !app_assoc; reflexivity).
    unfold contains_keyword.
    apply keyword_in_context with (p := Some w); auto.
    - rewrite !lastp_app. simpl. apply space_not_word. exact Hw.
    - rewrite !lastp_app. reflexivity. }
  split; [exact Hin|].
  rewrite validate_syntax_valid.
  destruct (issues (validate_syntax sql)); [destruct Hin|reflexivity].
Qed.

Lemma syntax_select_constant_witness :
  In select_issue (issues (validate_syntax sql_constant))
  /\ is_valid (validate_syntax sql_constant) = false.
Proof.
  apply (@syntax_select_constant sql_constant [] (t "SELECT") (t "1;")
           " "%char); vm_compute; reflexivity.
Defined.

(** ** When the syntax checker calls a statement valid *)

Lemma length_when_app b (i : ValidationIssue) l :
  (length (when b i ++ l) =? 0) = negb b && (length l =? 0).
Proof. destruct b; reflexivity. Qed.

(** X4. The syntax checker returns [is_valid = true] exactly when the text
    is not blank, holds as many opening as closing parentheses and an even
    number of unescaped single quotes, ends (surrounding whitespace apart)
    in a semicolon, and nowhere holds SELECT followed by whitespace with no
    FROM keyword on the rest of the line. *)
Theorem syntax_valid_rule (sql : text) :
  is_valid (validate_syntax sql) = true
  <-> blank sql = false
      /\ count_occ ascii_dec sql "("%char = count_occ ascii_dec sql ")"%char
      /\ Nat.even (unescaped_quotes None sql) = true
      /\ lastp None (strip sql) = Some semicolon
      /\ ~ (exists pre S sp post,
              strip sql = pre ++ S ++ sp ++ post
              /\ same_chars true (t "SELECT") S = true
              /\ sp <> [] /\ blank sp = true
              /\ keyword_from (t "FROM") (lastp None (pre ++ S ++ sp))
                   (first_line post) = false).
Proof.
  rewrite <- re_select_no_from_spec, validate_syntax_valid.
  destruct (blank sql) eqn:B.
  - rewrite (validate_syntax_blank _ B). simpl. split; [discriminate|].
    intros [E _]. discriminate.
  - rewrite (validate_syntax_issues _ B), !length_when_app.
    rewrite unescaped_quotes_count, odd_mod2, unescaped_quotes_strip.
    change (t "(") with ["("%char]. change (t ")") with [")"%char].
    rewrite !count_char_occ, !count_occ_strip by reflexivity.
    rewrite <- re_terminator_strip, <- Nat.negb_even, !negb_involutive.
    destruct (re_search true re_select_no_from (strip sql));
      destruct (re_search false re_terminator (strip sql));
      destruct (Nat.even (unescaped_quotes None sql));
      simpl; rewrite ?andb_false_r, ?andb_true_r; split;
      try discriminate; try tauto;
      try (intros (_ & _ & E & _); discriminate);
      try (intros (_ & _ & _ & E & _); discriminate).
    + intros H. apply Z.eqb_eq, Nat2Z.inj in H.
      repeat split; auto; discriminate.
    + intros (_ & H & _). rewrite H. apply Z.eqb_refl.
Qed.

(** ** What the security checker reports *)

Lemma flat_map_when (A : Type) (c : A -> bool) (mk : A -> ValidationIssue) l :
  flat_map (fun x => when (c x) (mk x)) l = map mk (filter c l).
Proof.
  induction l as [|x l IH]; simpl; auto.
  destruct (c x); simpl; rewrite IH; reflexivity.
Qed.

Lemma subseq_refl (A : Type) (l : list A) : subseq l l.
Proof. induction l; [apply subseq_nil|apply subseq_take; assumption]. Qed.

Lemma subseq_filter (A : Type) (c : A -> bool) l : subseq (filter c l) l.
Proof.
  induction l as [|x l IH]; simpl; [apply subseq_nil|].
  destruct (c x); [apply subseq_take|apply subseq_skip]; exact IH.
Qed.

Lemma subseq_map (A B : Type) (f : A -> B) l1 l2 :
  subseq l1 l2 -> subseq (map f l1) (map f l2).
Proof.
  induction 1; simpl;
    [apply subseq_nil|apply subseq_skip|apply subseq_take]; assumption.
Qed.

Lemma subseq_app (A : Type) (a1 a2 b1 b2 : list A) :
  subseq a1 a2 -> subseq b1 b2 -> subseq (a1 ++ b1) (a2 ++ b2).
Proof.
  induction 1; simpl; auto; intros H';
    [apply subseq_skip|apply subseq_take]; auto.
Qed.

Lemma subseq_length (A : Type) (l1 l2 : list A) :
  subseq l1 l2 -> length l1 <= length l2.
Proof. induction 1; simpl; lia. Qed.

(** X5. Whatever the text, the security checker reports the signatures in
    the order of its catalogue and each signature at most once, however
    often it occurs, followed by at most one password Warning: the messages
    of its issues form a subsequence of the catalogue messages followed by
    the password message.  So it reports at most eleven issues, all of
    category security and all with a suggestion. *)
Theorem security_catalogue_order (sql : text) :
  subseq (map message (issues (validate_security sql)))
         (map snd SQL_INJECTION_PATTERNS ++ [message password_issue])
  /\ length (issues (validate_security sql)) <= 11
  /\ (forall i, In i (issues (validate_security sql)) ->
        category i = "security"%string /\ suggestion i <> None).
Proof.
  assert (S : subseq (map message (issues (validate_security sql)))
                (map snd SQL_INJECTION_PATTERNS ++ [message password_issue])).
  { unfold validate_security. cbn [issues].
    rewrite (flat_map_when (fun pm => re_search true (fst pm) sql)
               (fun pm => injection_issue (snd pm))).
    rewrite map_app, map_map. cbn [injection_issue message].
    apply subseq_app.
    - apply subseq_map, subseq_filter.
    - destruct (re_search true re_password sql); simpl;
        [apply subseq_take|apply subseq_skip]; apply subseq_nil. }
  split; [exact S|]. split.
  - apply subseq_length in S. rewrite length_map in S. exact S.
  - intros i Hi. destruct (security_issues _ _ Hi) as [[_ (pm & _ & _ & ->)]|[-> _]];
      split; (reflexivity || discriminate).
Qed.

Lemma injection_issue_in sql msg :
  In (injection_issue msg) (issues (validate_security sql))
  <-> exists pm, In pm SQL_INJECTION_PATTERNS /\ snd pm = msg
                 /\ re_search true (fst pm) sql = true.
Proof.
  split.
  - intros Hi.
    destruct (security_issues _ _ Hi) as [[_ (pm & Hpm & Hs & E)]|[E _]];
      [|discriminate].
    injection E as E. exists pm. auto.
  - intros (pm & Hpm & <- & Hs). unfold validate_security. cbn [issues].
    rewrite in_app_iff, in_flat_map. left. exists pm. split; auto.
    apply in_when. auto.
Qed.

(** A literal, whitespace, a literal. *)
Lemma re_two_words_spec (a b : string) (s : text) :
  re_search true (seqs [lit a; Plus ws; lit b]) s = true
  <-> exists pre A sp B post,
        s = pre ++ A ++ sp ++ B ++ post
        /\ same_chars true (t a) A = true
        /\ sp <> [] /\ blank sp = true
        /\ same_chars true (t b) B = true.
Proof.
  rewrite re_search_spec. cbn [seqs]. split.
  - intros (pre & w & post & -> & w1 & w23 & -> & H1 & w2 & w3 & -> & H2 & H3).
    apply mt_lit_chars in H1. apply mt_lit_chars in H3.
    apply mt_plus_cls in H2 as [N H2].
    exists pre, w1, w2, w3, post. rewrite <- !app_assoc. auto.
  - intros (pre & A & sp & B & post & -> & HA & N & Hsp & HB).
    exists pre, (A ++ sp ++ B), post. rewrite <- !app_assoc. split; auto.
    exists A, (sp ++ B). split; auto. split.
    + apply mt_lit_chars. exact HA.
    + exists sp, B. split; auto. split.
      * apply mt_plus_cls. auto.
      * apply mt_lit_chars. exact HB.
Qed.

(** X6. The security checker reports "Potential UNION-based injection"
    exactly when the text holds UNION, whitespace, SELECT, in any case and
    also inside longer words. *)
Theorem security_union_select (sql : text) :
  In (injection_issue "Potential UNION-based injection")
     (issues (validate_security sql))
  <-> exists pre U sp S post,
        sql = pre ++ U ++ sp ++ S ++ post
        /\ same_chars true (t "UNION") U = true
        /\ sp <> [] /\ blank sp = true
        /\ same_chars true (t "SELECT") S = true.
Proof.
  rewrite <- (re_two_words_spec "UNION" "SELECT"), injection_issue_in. split.
  - intros (pm & Hpm & Hm & Hs). unfold SQL_INJECTION_PATTERNS in Hpm.
    cbn [In] in Hpm.
    repeat (destruct Hpm as [<-|Hpm]; [cbn [snd fst] in *; try discriminate|]);
      [exact Hs|destruct Hpm].
  - intros H.
    exists (seqs [lit "UNION"; Plus ws; lit "SELECT"],
            "Potential UNION-based injection"%string).
    split; [|split; [reflexivity|exact H]].
    unfold SQL_INJECTION_PATTERNS. cbn [In]. auto 20.
Qed.

(** ** What the performance checker reports *)

Lemma re_delete_update_spec s :
  re_search true re_delete_update s
  = contains_keyword "DELETE" s || contains_keyword "UPDATE" s.
Proof.
  rewrite <- !re_search_keyword by (discriminate || reflexivity).
  apply bool_iff. rewrite orb_true_iff, !re_search_spec.
  unfold re_delete_update, keyword. cbn [seqs]. split.
  - intros (a & w & b & E & w1 & w23 & E1 & H1 & w2 & w3 & E2 & [H2|H2] & H3);
      [left|right]; exists a, w, b; (split; [exact E|]);
      exists w1, w23; (split; [exact E1|]); (split; [exact H1|]);
      exists w2, w3; auto.
  - intros [(a & w & b & E & w1 & w23 & E1 & H1 & w2 & w3 & E2 & H2 & H3)
           |(a & w & b & E & w1 & w23 & E1 & H1 & w2 & w3 & E2 & H2 & H3)];
      exists a, w, b; (split; [exact E|]);
      exists w1, w23; (split; [exact E1|]); (split; [exact H1|]);
      exists w2, w3; (split; [exact E2|]); (split; [|exact H3]);
      [left|right]; exact H2.
Qed.

Lemma re_where_spec s : re_search true re_where s = contains_keyword "WHERE" s.
Proof.
  unfold re_where. apply re_search_keyword; [discriminate|reflexivity].
Qed.

(** X7. The performance checker warns "DELETE/UPDATE without WHERE clause"
    exactly when the text holds the keyword DELETE or the keyword UPDATE (as
    whole words, in any case) and nowhere the keyword WHERE. *)
Theorem performance_missing_where (sql : text) :
  In where_issue (issues (validate_performance sql))
  <-> (contains_keyword "DELETE" sql || contains_keyword "UPDATE" sql) = true
      /\ contains_keyword "WHERE" sql = false.
Proof.
  rewrite <- re_delete_update_spec, <- re_where_spec.
  unfold validate_performance. cbn [issues].
  rewrite !in_app_iff, in_flat_map, !in_when. split.
  - intros [(pm & _ & Hi)|[[_ E]|[H _]]]; try discriminate.
    + apply in_when in Hi as [_ E]. discriminate.
    + apply andb_prop in H as [H1 H2]. rewrite negb_true_iff in H2. auto.
  - intros [H1 H2]. right. right. rewrite H1, H2. auto.
Qed.

Lemma performance_warning_in sql msg :
  In (performance_issue WARNING msg None) (issues (validate_performance sql))
  <-> exists pm, In pm PERFORMANCE_PATTERNS /\ snd pm = msg
                 /\ re_search true (fst pm) sql = true.
Proof.
  unfold validate_performance. cbn [issues].
  rewrite !in_app_iff, in_flat_map, !in_when. split.
  - intros [(pm & Hpm & Hi)|[[_ E]|[_ E]]]; try discriminate.
    apply in_when in Hi as [Hs E]. injection E as E. exists pm. auto.
  - intros (pm & Hpm & <- & Hs). left. exists pm. split; auto.
    apply in_when. auto.
Qed.

(** X8. Whenever the performance checker warns about a leading wildcard in
    LIKE, it also warns about SELECT *: the wildcard pattern begins with
    the SELECT * pattern. *)
Theorem performance_wildcard_implies_star (sql : text) :
  In (performance_issue WARNING
        "Leading wildcard in LIKE prevents index use" None)
     (issues (validate_performance sql)) ->
  In (performance_issue WARNING
        "SELECT * can be inefficient, specify columns" None)
     (issues (validate_performance sql)).
Proof.
  rewrite !performance_warning_in.
  intros (pm & Hpm & Hm & Hs). unfold PERFORMANCE_PATTERNS in Hpm.
  cbn [In] in Hpm.
  repeat (destruct Hpm as [<-|Hpm];
          [cbn [snd fst where_call] in *; try discriminate|]);
    [|destruct Hpm].
  exists (seqs [lit "SELECT"; Plus ws; ch "*"; Plus ws; lit "FROM"],
          "SELECT * can be inefficient, specify columns"%string).
  split; [unfold PERFORMANCE_PATTERNS; cbn [In]; auto|].
  split; [reflexivity|]. cbn [fst].
  apply re_search_spec in Hs. apply re_search_spec. cbn [seqs] in *.
  destruct Hs as (a & w & b & -> & w1 & r1 & -> & H1 & w2 & r2 & -> & H2
                  & w3 & r3 & -> & H3 & w4 & r4 & -> & H4
                  & w5 & r5 & -> & H5 & _).
  apply mt_lit_chars in H1. apply mt_plus_cls in H2.
  apply mt_plus_cls in H4. apply mt_lit_chars in H5.
  destruct H3 as (x & -> & Hx).
  exists a, (w1 ++ w2 ++ [x] ++ w4 ++ w5), (r5 ++ b).
  split; [rewrite <- !app_assoc; reflexivity|].
  exists w1, (w2 ++ [x] ++ w4 ++ w5). split; [reflexivity|].
  split; [apply mt_lit_chars; exact H1|].
  exists w2, ([x] ++ w4 ++ w5). split; [reflexivity|].
  split; [apply mt_plus_cls; exact H2|].
  exists [x], (w4 ++ w5). split; [reflexivity|].
  split; [exists x; auto|].
  exists w4, w5. split; [reflexivity|].
  split; [apply mt_plus_cls; exact H4|apply mt_lit_chars; exact H5].
Qed.

Lemma performance_wildcard_implies_star_witness :
  In (performance_issue WARNING
        "SELECT * can be inefficient, specify columns" None)
     (issues (validate_performance
                (t "SELECT * FROM users WHERE name LIKE '%test%'"))).
Proof.
  apply performance_wildcard_implies_star.
  vm_compute. right. left. reflexivity.
Defined.

(** ** Where a captured group comes from *)

Lemma suffix_tail x (s T : text) : suffix (x :: s) T -> suffix s T.
Proof.
  intros (a & ->). exists (a ++ [x]). rewrite <- app_assoc. reflexivity.
Qed.

Lemma suffix_refl (s : text) : suffix s s.
Proof. exists []. reflexivity. Qed.

Lemma infix_firstn n (s T : text) : suffix s T -> infix (firstn n s) T.
Proof.
  intros (a & ->). exists a, (skipn n s). rewrite firstn_skipn. reflexivity.
Qed.

Lemma infix_nil (T : text) : infix [] T.
Proof. exists [], T. reflexivity. Qed.

Section Capture.
Variable T : text.
Variable A : Type.
Variable Q : A -> Prop.

Lemma star_loop_capture
    (step : option ascii -> text -> option text ->
            (option ascii -> text -> option text -> option A) -> option A)
    (k : option ascii -> text -> option text -> option A) :
  (forall k' p s cap,
     suffix s T -> (forall g, cap = Some g -> infix g T) ->
     (forall p' s' cap' a, suffix s' T ->
        (forall g, cap' = Some g -> infix g T) ->
        k' p' s' cap' = Some a -> Q a) ->
     forall a, step p s cap k' = Some a -> Q a) ->
  (forall p' s' cap' a, suffix s' T ->
     (forall g, cap' = Some g -> infix g T) ->
     k p' s' cap' = Some a -> Q a) ->
  forall n p s cap,
    suffix s T -> (forall g, cap = Some g -> infix g T) ->
    forall a, star_loop step k n p s cap = Some a -> Q a.
Proof.
  intros Hstep Hk. induction n as [|n IH]; intros p s cap Hs Hc a; simpl.
  - apply Hk; auto.
  - destruct (step p s cap _) as [a'|] eqn:E.
    + intros Ea. injection Ea as <-. revert E. apply Hstep; auto.
      intros p' s' cap' a0 Hs' Hc'.
      destruct (length s' <? length s); [|discriminate]. apply IH; auto.
    + apply Hk; auto.
Qed.
End Capture.

(** Whatever the matcher hands to its continuation as group 1 is a piece
    of the searched text. *)
Lemma rmatch_capture (T : text) (ic : bool) (r : regex) :
  forall (A : Type) (Q : A -> Prop)
         (k : option ascii -> text -> option text -> option A) p s cap,
    suffix s T -> (forall g, cap = Some g -> infix g T) ->
    (forall p' s' cap' a, suffix s' T ->
       (forall g, cap' = Some g -> infix g T) ->
       k p' s' cap' = Some a -> Q a) ->
    forall a, rmatch ic r p s cap k = Some a -> Q a.
Proof.
  induction r as [|c|f|r1 IH1 r2 IH2|r1 IH1 r2 IH2|r1 IH1|r1 IH1|r1 IH1| |];
    intros A Q k p s cap Hs Hc Hk a; simpl.
  - apply Hk; auto.
  - destruct s as [|x s]; [discriminate|].
    destruct (chr_eq ic c x); [|discriminate].
    apply Hk; auto. eapply suffix_tail; eauto.
  - destruct s as [|x s]; [discriminate|].
    destruct (f x); [|discriminate].
    apply Hk; auto. eapply suffix_tail; eauto.
  - apply IH1; auto. intros p' s' cap' a' Hs' Hc'. apply IH2; auto.
  - destruct (rmatch ic r1 p s cap k) as [a'|] eqn:E.
    + intros Ea. injection Ea as <-. revert E. apply IH1; auto.
    + apply IH2; auto.
  - apply star_loop_capture with (T := T); auto.
    intros k' p0 s0 cap0 Hs0 Hc0 Hk'. apply IH1; auto.
  - apply IH1; auto. intros p' s' _ a' Hs' _. apply Hk; auto.
    intros g Eg. injection Eg as <-. apply infix_firstn. exact Hs.
  - destruct (rmatch ic r1 p s cap (fun _ _ _ => Some tt));
      [discriminate|]. apply Hk; auto.
  - destruct (boundary p s); [|discriminate]. apply Hk; auto.
  - destruct s as [|x [|y s]]; try discriminate.
    + apply Hk; auto.
    + destruct (Ascii.eqb x nl); [|discriminate]. apply Hk; auto.
Qed.

Lemma search_at_capture (T : text) ic r : forall s p m,
  suffix s T -> search_at ic r p s = Some m ->
  suffix (f_rest m) T /\ (forall g, f_group m = Some g -> infix g T).
Proof.
  assert (K : forall p s, suffix s T -> forall m,
    rmatch ic r p s None (fun p' s' cap => Some (Found p' s' cap)) = Some m ->
    suffix (f_rest m) T /\ (forall g, f_group m = Some g -> infix g T)).
  { intros p s Hs.
    apply (@rmatch_capture T ic r found
             (fun m => suffix (f_rest m) T
                       /\ (forall g, f_group m = Some g -> infix g T)));
      auto; [discriminate|].
    intros p' s' cap' a Hs' Hc' Ea. injection Ea as <-. auto. }
  induction s as [|x s IH]; intros p m Hs; simpl.
  - destruct (rmatch ic r p [] None _) as [m'|] eqn:E; [|discriminate].
    intros Em. injection Em as <-. eapply K; eauto.
  - destruct (rmatch ic r p (x :: s) None _) as [m'|] eqn:E.
    + intros Em. injection Em as <-. eapply K; eauto.
    + apply IH. eapply suffix_tail; eauto.
Qed.

Lemma finditer_from_capture (T : text) ic r : forall fuel p s g,
  suffix s T -> In g (finditer_from fuel ic r p s) -> infix g T.
Proof.
  induction fuel as [|fuel IH]; intros p s g Hs; simpl; [tauto|].
  destruct (search_at ic r p s) as [m|] eqn:E; [|simpl; tauto].
  destruct (search_at_capture _ _ _ Hs E) as [Hr Hg].
  intros [<-|Hin].
  - destruct (f_group m) as [g|]; [apply Hg; reflexivity|apply infix_nil].
  - destruct (length (f_rest m) <? length s); [|destruct Hin].
    eapply IH; eauto.
Qed.

(** Every group returned by [finditer] is a piece of the text. *)
Lemma finditer_capture ic r s g : In g (finditer ic r s) -> infix g s.
Proof. apply finditer_from_capture, suffix_refl. Qed.

(** ** Mixed case *)

Lemma mixed_case_spec s :
  mixed_case s = true
  <-> exists a x y b, s = a ++ x :: y :: b
                      /\ is_lower x = true /\ is_upper y = true.
Proof.
  induction s as [|x s IH]; simpl.
  - split; [discriminate|]. intros ([|] & ? & ? & ? & E & _); discriminate.
  - rewrite orb_true_iff, IH. split.
    + intros [H|(a & x' & y & b & -> & Hx & Hy)].
      * destruct s as [|y s]; [discriminate|].
        apply andb_prop in H as [Hx Hy]. exists [], x, y, s. auto.
      * exists (x :: a), x', y, b. auto.
    + intros ([|z a] & x' & y & b & E & Hx & Hy); simpl in E;
        injection E as -> ->.
      * left. rewrite Hx, Hy. reflexivity.
      * right. eauto 10.
Qed.

Lemma mixed_case_infix g s : infix g s -> mixed_case g = true -> mixed_case s = true.
Proof.
  intros (a & b & ->) H. apply mixed_case_spec in H as (a' & x & y & b' & -> & Hx & Hy).
  apply mixed_case_spec. exists (a ++ a'), x, y, (b' ++ b).
  rewrite <- !app_assoc. simpl. auto.
Qed.

Lemma re_mixed_case_spec s : re_search false re_mixed_case s = mixed_case s.
Proof.
  apply bool_iff. rewrite re_search_spec, mixed_case_spec.
  unfold re_mixed_case. split.
  - intros (a & w & b & -> & w1 & w2 & -> & (x & -> & Hx) & (y & -> & Hy)).
    exists a, x, y, b. auto.
  - intros (a & x & y & b & -> & Hx & Hy).
    exists a, [x; y], b. split; auto. exists [x], [y]. simpl. eauto 10.
Qed.

Lemma naming_issue_origin sql i :
  In i (issues (validate_naming sql)) ->
  exists identifier, i = naming_issue identifier
                     /\ infix identifier sql
                     /\ mixed_case identifier = true.
Proof.
  unfold validate_naming. cbn [issues]. rewrite in_flat_map.
  intros (pattern & _ & Hi). apply in_flat_map in Hi as (ident & Hid & Hi).
  apply in_when in Hi as [Hm ->]. exists ident.
  rewrite re_mixed_case_spec in Hm. split; auto. split; auto.
  eapply finditer_capture; eauto.
Qed.

(** X9. Every issue of the naming checker is an Info of category naming
    whose message quotes an identifier that is a contiguous piece of the
    text and in which a lowercase letter is directly followed by an
    uppercase letter. *)
Theorem naming_issue_identifier (sql : text) (i : ValidationIssue) :
  In i (issues (validate_naming sql)) ->
  exists identifier,
    infix identifier sql
    /\ mixed_case identifier = true
    /\ severity i = INFO /\ category i = "naming"%string
    /\ message i = ("Identifier '" ++ str_of_text identifier
                    ++ "' uses mixed case")%string.
Proof.
  intros Hi. apply naming_issue_origin in Hi as (ident & -> & Hf & Hm).
  exists ident. repeat split; auto.
Qed.

Lemma naming_issue_identifier_witness :
  exists identifier,
    infix identifier (t "SELECT * FROM UserAccounts")
    /\ mixed_case identifier = true
    /\ severity (naming_issue (t "UserAccounts")) = INFO
    /\ category (naming_issue (t "UserAccounts")) = "naming"%string
    /\ message (naming_issue (t "UserAccounts"))
       = ("Identifier '" ++ str_of_text identifier
          ++ "' uses mixed case")%string.
Proof.
  apply (@naming_issue_identifier (t "SELECT * FROM UserAccounts")).
  vm_compute. left. reflexivity.
Defined.

(** X10. A text in which no lowercase letter is directly followed by an
    uppercase letter, for instance one written in a single case, gets no
    naming issue at all. *)
Theorem naming_single_case_clean (sql : text) :
  mixed_case sql = false -> issues (validate_naming sql) = [].
Proof.
  intros H. destruct (issues (validate_naming sql)) as [|i l] eqn:E; auto.
  assert (Hi : In i (issues (validate_naming sql)))
    by (rewrite E; left; reflexivity).
  apply naming_issue_origin in Hi as (ident & _ & Hf & Hm).
  rewrite (mixed_case_infix Hf Hm) in H. discriminate.
Qed.

Lemma naming_single_case_clean_witness :
  issues (validate_naming (t "select * from user_accounts join ORDERS")) = [].
Proof.
  apply naming_single_case_clean. vm_compute. reflexivity.
Defined.

(** ** The tables a statement refers to *)

Lemma mem_spec x l : mem x l = true <-> In x l.
Proof.
  unfold mem. destruct (in_dec text_eq_dec x l); split; auto; discriminate.
Qed.

Lemma to_lower_idem c : to_lower (to_lower c) = to_lower c.
Proof.
  apply Ascii.eqb_eq.
  apply (for_all_chars
           (fun c => Ascii.eqb (to_lower (to_lower c)) (to_lower c))).
  vm_compute; reflexivity.
Qed.

Lemma lower_idem s : lower (lower s) = lower s.
Proof.
  unfold lower. rewrite map_map. apply map_ext. apply to_lower_idem.
Qed.

Lemma referenced_tables_in sql tb :
  In tb (referenced_tables sql)
  <-> exists raw, In raw (finditer true table_pattern sql)
                  /\ ~ In (lower raw) not_tables /\ tb = lower raw.
Proof.
  unfold referenced_tables.
  rewrite <- in_rev, nodup_In, <- in_rev, in_map_iff. split.
  - intros (raw & <- & H). apply filter_In in H as [H1 H2].
    exists raw. repeat split; auto.
    rewrite negb_true_iff in H2. intros H. apply mem_spec in H. congruence.
  - intros (raw & H1 & H2 & ->). exists raw. split; auto.
    apply filter_In. split; auto. rewrite negb_true_iff.
    destruct (mem (lower raw) not_tables) eqn:E; auto.
    apply mem_spec in E. contradiction.
Qed.

(** X11. The existence checker looks each table up once and in lowercase:
    the list of referenced tables has no duplicates, every entry is the
    lowercase form of a contiguous piece of the text, and none of select,
    where, order, group is ever among them. *)
Theorem referenced_tables_normalised (sql : text) :
  NoDup (referenced_tables sql)
  /\ (forall tb, In tb (referenced_tables sql) ->
        lower tb = tb
        /\ ~ In tb [t "select"; t "where"; t "order"; t "group"]
        /\ exists raw, infix raw sql /\ tb = lower raw).
Proof.
  split.
  - unfold referenced_tables. apply NoDup_rev, NoDup_nodup.
  - intros tb H. apply referenced_tables_in in H as (raw & H1 & H2 & ->).
    split; [apply lower_idem|]. split; [exact H2|].
    exists raw. split; auto. eapply finditer_capture; eauto.
Qed.

Lemma referenced_tables_normalised_witness :
  referenced_tables sql_join = [t "users"; t "orders"]
  /\ lower (t "orders") = t "orders"
  /\ exists raw, infix raw sql_join /\ t "orders" = lower raw.
Proof.
  split; [vm_compute; reflexivity|].
  destruct (proj2 (referenced_tables_normalised sql_join) (t "orders"))
    as (H1 & _ & H3); [vm_compute; auto|]. auto.
Defined.

(** ** The existence pass with a reachable catalogue *)

Lemma validate_table_exists_rows w sql config c rows :
  match config with Some c' => Returned c' | None => from_env w end
  = Returned c ->
  pg_tables w c (schema c) = Returned rows ->
  validate_table_exists w sql config None
  = Returned
      (Result
         (length (flat_map
                    (fun table => when (negb (mem table (map lower rows)))
                                       (missing_issue table (schema c)))
                    (referenced_tables sql)) =? 0)
         (flat_map
            (fun table => when (negb (mem table (map lower rows)))
                               (missing_issue table (schema c)))
            (referenced_tables sql))).
Proof.
  intros Hc Hr. unfold validate_table_exists. rewrite Hc. simpl.
  destruct (referenced_tables sql) as [|tb l] eqn:E; [reflexivity|].
  rewrite Hr. reflexivity.
Qed.

(** What [connect] and the reading of the rows give with SQLAlchemy as the
    only driver, and with psycopg2. *)
Lemma pg_tables_sqlalchemy env d c schema open execute :
  fst (validate c) = true ->
  connect_psycopg2 d = None ->
  connect_sqlalchemy d = Some open ->
  open c = Returned execute ->
  pg_tables (installed_world env d) c schema = execute schema.
Proof.
  intros Hv Hp Hs Ho.
  unfold installed_world, connected_world, choose_driver. cbn [pg_tables].
  rewrite Hp, Hs. cbn [option_map]. unfold connect_and_list.
  destruct (validate c) as [ok errors]. cbn [fst] in Hv. rewrite Hv.
  cbn [negb]. unfold list_tables. rewrite Ho. reflexivity.
Qed.

Lemma pg_tables_psycopg2 env d c schema open fetchall rows :
  fst (validate c) = true ->
  connect_psycopg2 d = Some open ->
  open c = Returned fetchall ->
  fetchall schema = Returned rows ->
  pg_tables (installed_world env d) c schema
  = match rows with
    | [] => Returned []
    | _ :: _ => Raised tuple_index_message
    end.
Proof.
  intros Hv Hp Ho Hf.
  unfold installed_world, connected_world, choose_driver. cbn [pg_tables].
  rewrite Hp. cbn [option_map]. unfold connect_and_list.
  destruct (validate c) as [ok errors]. cbn [fst] in Hv. rewrite Hv.
  cbn [negb]. unfold list_tables. rewrite Ho. cbn [bind read_tablenames].
  rewrite Hf. reflexivity.
Qed.

Lemma from_env_installed env d : from_env (installed_world env d) = env.
Proof. reflexivity. Qed.







(** ** A rejected configuration *)

Lemma note_nil b m : note b m = [] <-> b = false.
Proof. destruct b; simpl; split; congruence. Qed.

Lemma validate_rejects c :
  fst (validate c) = false
  <-> host c = ""%string \/ (port c < 1)%Z \/ (65535 < port c)%Z
      \/ database c = ""%string \/ user c = ""%string
      \/ (connect_timeout c <= 0)%Z.
Proof.
  unfold validate. cbn [fst].
  destruct (String.eqb_spec (host c) "") as [Eh|Nh];
    [split; [auto|reflexivity]|].
  destruct (Z.leb_spec 1 (port c)) as [P1|P1];
    [|split; [intros _; right; left; exact P1|reflexivity]].
  destruct (Z.leb_spec (port c) 65535) as [P2|P2];
    [|split; [intros _; right; right; left; exact P2|reflexivity]].
  destruct (String.eqb_spec (database c) "") as [Ed|Nd];
    [split; [auto 6|reflexivity]|].
  destruct (String.eqb_spec (user c) "") as [Eu|Nu];
    [split; [auto 6|reflexivity]|].
  destruct (Z.leb_spec (connect_timeout c) 0) as [P3|P3];
    [split; [auto 7|reflexivity]|].
  cbn [note app length Nat.eqb andb negb]. split; [discriminate|].
  intros [X|[X|[X|[X|[X|X]]]]]; try contradiction; lia.
Qed.

(** X14. A configuration with an empty host, database or user, a port
    outside 1..65535 or a timeout that is not positive never reaches a
    driver: for a statement that refers to a table, the existence checker
    returns exactly one Warning whose text is "Could not verify table
    existence: Invalid configuration: " followed by the list of the
    configuration errors, whatever the driver would have answered, and the
    aggregator returns with that Warning last. *)
Theorem existence_rejected_configuration
    (env : outcome KingbaseConfig)
    (driver : option (KingbaseConfig -> string -> outcome (list text)))
    (sql : text) (c : KingbaseConfig) :
  host c = ""%string \/ (port c < 1)%Z \/ (65535 < port c)%Z
  \/ database c = ""%string \/ user c = ""%string
  \/ (connect_timeout c <= 0)%Z ->
  referenced_tables sql <> [] ->
  let warning :=
    Issue WARNING "existence"
      ("Could not verify table existence: Invalid configuration: "
         ++ repr_list (snd (validate c)))
      None None (Some "Ensure database connection is working"%string) in
  snd (validate c) <> []
  /\ validate_table_exists (connected_world env driver) sql (Some c) None
     = Returned (Result false [warning])
  /\ exists r, validate_sql (connected_world env driver) sql (Some c) true
               = Returned r
               /\ last (issues r) empty_issue = warning
               /\ is_valid r
                  = no_error (issues (validate_syntax sql)
                              ++ issues (validate_security sql)
                              ++ issues (validate_performance sql)
                              ++ issues (validate_naming sql)).
Proof.
  intros Hbad Ht warning. apply validate_rejects in Hbad.
  assert (Hs : snd (validate c) <> []).
  { unfold validate in *. cbn [fst snd] in *.
    intros E. rewrite E in Hbad. discriminate. }
  assert (E : validate_table_exists (connected_world env driver) sql
                (Some c) None = Returned (Result false [warning])).
  { unfold validate_table_exists. simpl.
    destruct (referenced_tables sql); [congruence|].
    unfold connect_and_list.
    destruct (validate c) as [ok errors]. cbn [fst snd] in *.
    rewrite Hbad. reflexivity. }
  split; [exact Hs|]. split; [exact E|].
  rewrite validate_sql_existence, E. cbn [bind issues]. eexists.
  split; [reflexivity|]. cbn [issues is_valid]. split.
  - rewrite last_last. reflexivity.
  - rewrite no_error_app. unfold no_error at 2. simpl.
    rewrite andb_true_r. reflexivity.
Qed.

Lemma existence_rejected_configuration_witness :
  validate_table_exists
    (connected_world (Raised "unset")
       (Some (fun _ _ => Returned [t "users"])))
    sql_plain
    (Some (Config "" 54321 "test" "system" "" "public" 10 "kingbase_skill"))
    None
  = Returned
      (Result false
         [Issue WARNING "existence"
            "Could not verify table existence: Invalid configuration: ['Host cannot be empty']"
            None None (Some "Ensure database connection is working"%string)]).
Proof.
  apply (@existence_rejected_configuration (Raised "unset")
           (Some (fun _ _ => Returned [t "users"])) sql_plain
           (Config "" 54321 "test" "system" "" "public" 10 "kingbase_skill")).
  - left. reflexivity.
  - vm_compute. discriminate.
Defined.

(** ** The report *)

Lemma lookup_group_add i cats k :
  lookup k (group_add i cats)
  = if String.eqb (category i) k then lookup k cats ++ [i] else lookup k cats.
Proof.
  induction cats as [|[k' l] rest IH]; simpl.
  - destruct (String.eqb (category i) k); reflexivity.
  - destruct (String.eqb_spec k' (category i)) as [->|N]; simpl.
    + destruct (String.eqb (category i) k); reflexivity.
    + rewrite IH. destruct (String.eqb_spec k' k) as [->|N']; auto.
      destruct (String.eqb_spec (category i) k); [congruence|reflexivity].
Qed.

Lemma keys_group_add i cats k :
  In k (map fst (group_add i cats))
  <-> k = category i \/ In k (map fst cats).
Proof.
  induction cats as [|[k' l] rest IH]; simpl.
  - intuition congruence.
  - destruct (String.eqb_spec k' (category i)) as [->|N]; simpl.
    + intuition congruence.
    + rewrite IH. intuition congruence.
Qed.

Lemma nodup_group_add i cats :
  NoDup (map fst cats) -> NoDup (map fst (group_add i cats)).
Proof.
  induction cats as [|[k' l] rest IH]; simpl; intros H.
  - constructor; [intros []|constructor].
  - destruct (String.eqb_spec k' (category i)) as [->|N]; simpl; auto.
    inversion H as [|? ? Hk Hr]; subst. constructor; auto.
    rewrite keys_group_add. intros [E|E]; [congruence|contradiction].
Qed.

Lemma group_fold l : forall cats,
  (forall k, lookup k (fold_left (fun c i => group_add i c) l cats)
             = lookup k cats
               ++ filter (fun i => String.eqb (category i) k) l)
  /\ (forall k, In k (map fst (fold_left (fun c i => group_add i c) l cats))
                <-> In k (map fst cats)
                    \/ exists i, In i l /\ category i = k)
  /\ (NoDup (map fst cats) ->
      NoDup (map fst (fold_left (fun c i => group_add i c) l cats))).
Proof.
  induction l as [|i l IH]; intros cats; simpl.
  - split; [|split]; auto.
    + intros k. rewrite app_nil_r. reflexivity.
    + intros k. split; auto. intros [H|(i & [] & _)]. exact H.
  - destruct (IH (group_add i cats)) as (H1 & H2 & H3).
    split; [|split].
    + intros k. rewrite H1, lookup_group_add.
      destruct (String.eqb (category i) k); auto.
      rewrite <- app_assoc. reflexivity.
    + intros k. rewrite H2, keys_group_add. split.
      * intros [[->|H]|(j & Hj & E)]; eauto.
      * intros [H|(j & [<-|Hj] & E)]; eauto.
    + intros N. apply H3, nodup_group_add, N.
Qed.

Lemma insert_sorted_in x l k : In k (insert_sorted x l) <-> k = x \/ In k l.
Proof.
  induction l as [|y l IH]; simpl.
  - split; intros [H|H]; auto.
  - destruct (String.leb x y); simpl; [|rewrite IH]; split; intros H;
      repeat destruct H as [H|H]; auto.
Qed.

Lemma insert_sorted_nodup x l :
  NoDup l -> ~ In x l -> NoDup (insert_sorted x l).
Proof.
  induction l as [|y l IH]; simpl; intros N Hx.
  - constructor; auto.
  - destruct (String.leb x y); [constructor; auto|].
    inversion N as [|? ? Hy Hl]; subst. constructor.
    + rewrite insert_sorted_in. intros [E|E]; [|contradiction].
      apply Hx. left. exact E.
    + apply IH; auto.
Qed.

Lemma insert_sorted_sorted x l :
  Sorted (fun a b => String.leb a b = true) l ->
  Sorted (fun a b => String.leb a b = true) (insert_sorted x l).
Proof.
  induction l as [|y l IH]; simpl; intros H.
  - constructor; constructor.
  - destruct (String.leb x y) eqn:E.
    + constructor; auto.
    + inversion H as [|? ? Hs Hh]; subst. constructor; [apply IH; exact Hs|].
      assert (Hyx : String.leb y x = true)
        by (destruct (String.leb_total x y); congruence).
      destruct l as [|z l]; simpl; [constructor; exact Hyx|].
      destruct (String.leb x z); constructor; auto.
      inversion Hh; auto.
Qed.

Lemma sorted_spec l :
  Sorted (fun a b => String.leb a b = true) (sorted l)
  /\ (forall k, In k (sorted l) <-> In k l)
  /\ (NoDup l -> NoDup (sorted l)).
Proof.
  induction l as [|x l (H1 & H2 & H3)]; simpl.
  - split; [constructor|]. split; [tauto|auto].
  - split; [apply insert_sorted_sorted; exact H1|]. split.
    + intros k. rewrite insert_sorted_in, H2. split; intros [H|H]; auto.
    + intros N. inversion N as [|? ? Hx Hl]; subst.
      apply insert_sorted_nodup; auto. rewrite H2. exact Hx.
Qed.

Lemma grouped_permutation (l : list ValidationIssue) : forall keys,
  NoDup keys -> (forall i, In i l -> In (category i) keys) ->
  Permutation
    (flat_map (fun k => filter (fun i => String.eqb (category i) k) l) keys)
    l.
Proof.
  induction l as [|i l IH]; intros keys N C.
  - induction keys as [|k keys IHk]; simpl; auto.
    apply IHk; [inversion N; auto|intros i []].
  - assert (Hi : In (category i) keys) by (apply C; left; reflexivity).
    apply in_split in Hi as (k1 & k2 & ->).
    assert (Out : forall ks, ~ In (category i) ks ->
      flat_map (fun k => filter (fun j => String.eqb (category j) k) (i :: l)) ks
      = flat_map (fun k => filter (fun j => String.eqb (category j) k) l) ks).
    { induction ks as [|k ks IHks]; [reflexivity|]. intros H.
      cbn [flat_map]. rewrite IHks by (intros X; apply H; right; exact X).
      f_equal. cbn [filter].
      destruct (String.eqb_spec (category i) k) as [E|E]; [|reflexivity].
      exfalso. apply H. left. auto. }
    apply NoDup_remove_2 in N as N2.
    rewrite flat_map_app. cbn [flat_map]. rewrite !Out.
    + cbn [filter]. rewrite String.eqb_refl. cbn [app].
      apply Permutation_sym, Permutation_cons_app, Permutation_sym.
      specialize (IH (k1 ++ category i :: k2) N
                    (fun j Hj => C j (or_intror Hj))).
      rewrite flat_map_app in IH. exact IH.
    + intros H. apply N2, in_or_app. auto.
    + intros H. apply N2, in_or_app. auto.
Qed.

(** The lines of the report, block by block. *)
Lemma report_lines_grouped (result : ValidationResult) :
  exists keys,
    report_lines result
    = summary_line result
      :: flat_map
           (fun k => category_header k
                     :: flat_map issue_lines
                          (filter (fun i => String.eqb (category i) k)
                                  (issues result)))
           keys
    /\ Sorted (fun a b => String.leb a b = true) keys
    /\ NoDup keys
    /\ (forall k, In k keys
                  <-> exists i, In i (issues result) /\ category i = k)
    /\ Permutation
         (flat_map (fun k => filter (fun i => String.eqb (category i) k)
                                    (issues result)) keys)
         (issues result).
Proof.
  destruct (group_fold (issues result) []) as (H1 & H2 & H3).
  destruct (sorted_spec (map fst (group_by_category (issues result))))
    as (S1 & S2 & S3).
  exists (sorted (map fst (group_by_category (issues result)))).
  assert (K : forall k,
    In k (sorted (map fst (group_by_category (issues result))))
    <-> exists i, In i (issues result) /\ category i = k).
  { intros k. rewrite S2. unfold group_by_category. rewrite H2. simpl. tauto. }
  assert (N : NoDup (sorted (map fst (group_by_category (issues result))))).
  { apply S3. unfold group_by_category. apply H3. constructor. }
  split; [|split; [exact S1|split; [exact N|split; [exact K|]]]].
  - unfold report_lines. f_equal. apply flat_map_ext. intros k. f_equal.
    unfold group_by_category. rewrite H1. reflexivity.
  - apply grouped_permutation; auto. intros i Hi. apply K. eauto.
Qed.

(** X15. The report lists, after the summary line, one block per category:
    the categories in alphabetical order, each exactly once and only those
    that occur among the issues; under each header the issues of that
    category in the order of the result.  Every issue of the result is
    listed once. *)
Theorem report_grouping (result : ValidationResult) :
  exists keys,
    report_lines result
    = summary_line result
      :: flat_map
           (fun k => category_header k
                     :: flat_map issue_lines
                          (filter (fun i => String.eqb (category i) k)
                                  (issues result)))
           keys
    /\ Sorted (fun a b => String.leb a b = true) keys
    /\ NoDup keys
    /\ (forall k, In k keys
                  <-> exists i, In i (issues result) /\ category i = k)
    /\ Permutation
         (flat_map (fun k => filter (fun i => String.eqb (category i) k)
                                    (issues result)) keys)
         (issues result).
Proof. exact (report_lines_grouped result). Qed.

Lemma existsb_filter (A : Type) (f : A -> bool) l :
  existsb f l = false <-> filter f l = [].
Proof.
  induction l as [|x l IH]; simpl; [tauto|].
  destruct (f x); simpl; [split; discriminate|exact IH].
Qed.

Lemma severity_partition (l : list ValidationIssue) :
  length (filter is_error l) + length (filter is_warning l)
  + length (filter is_info l) = length l.
Proof.
  induction l as [|i l IH]; simpl; auto.
  unfold is_error, is_warning, is_info in *.
  destruct (severity i); simpl; lia.
Qed.

(** X16. For a result of the aggregator the summary line of the report
    starts with the check mark exactly when the result holds no Error and
    with the ballot cross exactly when it holds one; the numbers of
    errors, warnings and infos it counts add up to the number of issues. *)
Theorem report_summary_of_validate_sql (w : World) (sql : text)
    (config : option KingbaseConfig) (check_existence : bool)
    (r : ValidationResult) :
  validate_sql w sql config check_existence = Returned r ->
  (hd_error (summary_line r) = Some CHECK_MARK <-> get_errors r = [])
  /\ (hd_error (summary_line r) = Some BALLOT_X <-> get_errors r <> [])
  /\ hd_error (report_lines r) = Some (summary_line r)
  /\ length (get_errors r) + length (get_warnings r) + length (get_info r)
     = length (issues r).
Proof.
  intros E. apply validate_sql_returned in E.
  assert (V : is_valid r = true <-> get_errors r = []).
  { rewrite E. unfold no_error, get_errors.
    rewrite negb_true_iff. apply existsb_filter. }
  assert (S : hd_error (summary_line r)
              = Some (if is_valid r then CHECK_MARK else BALLOT_X)).
  { unfold summary_line. destruct (is_valid r); cbn [andb].
    - destruct (length (get_warnings r) =? 0);
        destruct (length (get_info r) =? 0); reflexivity.
    - reflexivity. }
  rewrite S. clear S E.
  split; [|split; [|split]].
  - destruct (is_valid r); split; intros H.
    + apply V. reflexivity.
    + reflexivity.
    + discriminate.
    + apply V in H. discriminate.
  - destruct (is_valid r); split; intros H.
    + discriminate.
    + exfalso. apply H, V. reflexivity.
    + intros G. apply V in G. discriminate.
    + reflexivity.
  - reflexivity.
  - apply severity_partition.
Qed.

Lemma report_summary_of_validate_sql_witness :
  hd_error (summary_line (Result true [semicolon_issue; limit_issue]))
  = Some CHECK_MARK
  <-> get_errors (Result true [semicolon_issue; limit_issue]) = [].
Proof.
  apply (@report_summary_of_validate_sql offline_world sql_plain None false).
  vm_compute. reflexivity.
Defined.

Lemma issue_lines_length i : 1 <= length (issue_lines i) <= 2.
Proof.
  unfold issue_lines.
  destruct (suggestion i) as [sg|]; [destruct (String.eqb sg "")|];
    cbn [length]; lia.
Qed.

Lemma flat_map_length_bounds (l : list ValidationIssue) :
  length l <= length (flat_map issue_lines l) <= 2 * length l.
Proof.
  induction l as [|i l IH]; [simpl; lia|].
  cbn [flat_map length]. rewrite length_app.
  pose proof (issue_lines_length i). lia.
Qed.

Lemma flat_map_flat_map (A B C : Type) (f : A -> list B) (g : B -> list C) l :
  flat_map g (flat_map f l) = flat_map (fun x => flat_map g (f x)) l.
Proof.
  induction l as [|x l IH]; simpl; auto. rewrite flat_map_app, IH. reflexivity.
Qed.

Lemma length_flat_map_cons (A B : Type) (h : A -> B) (f : A -> list B) l :
  length (flat_map (fun x => h x :: f x) l)
  = length l + length (flat_map f l).
Proof.
  induction l as [|x l IH]; simpl; auto. rewrite !length_app, IH. lia.
Qed.

(** The entries of the list [lines]: the summary, one header per category
    and one or two entries per issue. *)
Lemma report_lines_length (result : ValidationResult) :
  length (report_lines result)
  = 1 + length (nodup string_dec (map category (issues result)))
    + length (flat_map issue_lines (issues result)).
Proof.
  destruct (report_lines_grouped result) as (keys & E & _ & N & K & P).
  assert (Hc : length keys
               = length (nodup string_dec (map category (issues result)))).
  { apply Permutation_length, NoDup_Permutation; auto.
    - apply NoDup_nodup.
    - intros k. rewrite K, nodup_In, in_map_iff. split.
      + intros (i & Hi & <-). eauto.
      + intros (i & <- & Hi). eauto. }
  rewrite E. cbn [length].
  rewrite (length_flat_map_cons category_header
             (fun k => flat_map issue_lines
                         (filter (fun i => String.eqb (category i) k)
                                 (issues result)))).
  rewrite Hc, <- flat_map_flat_map.
  rewrite (Permutation_length (Permutation_flat_map issue_lines P)).
  lia.
Qed.

(** *** Newlines of the report *)

Lemma newlines_app a b : newlines (a ++ b) = newlines a + newlines b.
Proof. unfold newlines. apply count_occ_app. Qed.

Lemma newlines_cons x s :
  newlines (x :: s) = (if N.eqb x (code nl) then 1 else 0) + newlines s.
Proof.
  unfold newlines. cbn [count_occ].
  destruct (N.eq_dec x (code nl)) as [->|Hx].
  - rewrite N.eqb_refl. reflexivity.
  - apply N.eqb_neq in Hx. rewrite Hx. reflexivity.
Qed.

Lemma code_nl c : N.eqb (code c) (code nl) = Ascii.eqb c nl.
Proof.
  apply Bool.eqb_prop.
  apply (for_all_chars
           (fun c => Bool.eqb (N.eqb (code c) (code nl)) (Ascii.eqb c nl))).
  vm_compute; reflexivity.
Qed.

Lemma newlines_u s : single_line s = true -> newlines (u s) = 0.
Proof.
  unfold single_line, u. rewrite negb_true_iff.
  induction s as [|c s IH]; [reflexivity|].
  cbn [holds list_ascii_of_string map]. rewrite orb_false_iff.
  intros [Hc Hs]. rewrite newlines_cons, code_nl, Hc. cbn [Nat.add].
  apply IH, Hs.
Qed.

Lemma upper_char_nl c :
  Ascii.eqb c nl || (newlines (upper_char c) =? 0) = true.
Proof.
  apply (for_all_chars
           (fun c => Ascii.eqb c nl || (newlines (upper_char c) =? 0))).
  vm_compute; reflexivity.
Qed.

Lemma newlines_upper s : single_line s = true -> newlines (upper s) = 0.
Proof.
  unfold single_line, upper. rewrite negb_true_iff.
  induction s as [|c s IH]; [reflexivity|].
  cbn [holds list_ascii_of_string flat_map]. rewrite orb_false_iff.
  intros [Hc Hs]. rewrite newlines_app, (IH Hs).
  pose proof (upper_char_nl c) as H. rewrite Hc in H. cbn [orb] in H.
  apply Nat.eqb_eq in H. rewrite H. reflexivity.
Qed.

Lemma single_line_uint (d : Decimal.uint) :
  single_line (DecimalString.NilEmpty.string_of_uint d) = true.
Proof. induction d; [reflexivity|exact IHd ..]. Qed.

Lemma single_line_str_of_int n : single_line (str_of_int n) = true.
Proof.
  assert (U : forall d, single_line (NilZero.string_of_uint d) = true).
  { intros d. unfold NilZero.string_of_uint.
    destruct d; try reflexivity; apply single_line_uint. }
  unfold str_of_int, NilZero.string_of_int.
  destruct (Z.to_int n) as [d|d]; [apply U|].
  specialize (U d). unfold single_line in *. cbn [holds].
  change (Ascii.eqb "-" nl) with false. exact U.
Qed.

Lemma newlines_count_text n : newlines (count_text n) = 0.
Proof. apply newlines_u, single_line_str_of_int. Qed.

Lemma newlines_summary_line result : newlines (summary_line result) = 0.
Proof.
  unfold summary_line.
  destruct (is_valid result && (length (get_warnings result) =? 0)
            && (length (get_info result) =? 0)); [reflexivity|].
  destruct (is_valid result);
    rewrite newlines_cons, !newlines_app, !newlines_count_text; reflexivity.
Qed.

Lemma newlines_issue_lines i :
  single_line_issue i = true ->
  list_sum (map newlines (issue_lines i)) = 0.
Proof.
  unfold single_line_issue, issue_lines. rewrite !andb_true_iff.
  intros [[_ Hm] Hs]. cbn [map list_sum fold_right].
  rewrite !newlines_app, (newlines_u _ Hm).
  assert (I : newlines [icon (severity i)] = 0)
    by (destruct (severity i); reflexivity).
  rewrite I. cbn [Nat.add].
  destruct (suggestion i) as [sg|]; [|reflexivity].
  destruct (String.eqb sg ""); [reflexivity|].
  cbn [map list_sum fold_right]. rewrite !newlines_app, (newlines_u _ Hs). reflexivity.
Qed.

Lemma newlines_issue_block (l : list ValidationIssue) :
  forallb single_line_issue l = true ->
  list_sum (map newlines (flat_map issue_lines l)) = 0.
Proof.
  induction l as [|i l IH]; [reflexivity|].
  cbn [forallb flat_map]. rewrite andb_true_iff. intros [Hi Hl].
  rewrite map_app, list_sum_app, (newlines_issue_lines _ Hi), (IH Hl).
  reflexivity.
Qed.

Lemma newlines_category_header k :
  single_line k = true -> newlines (category_header k) = 1.
Proof.
  intros H. unfold category_header.
  rewrite newlines_cons, N.eqb_refl, newlines_app, (newlines_upper _ H).
  reflexivity.
Qed.

Lemma newlines_blocks (l : list ValidationIssue) (keys : list string) :
  forallb single_line_issue l = true ->
  (forall k, In k keys -> single_line k = true) ->
  list_sum
    (map newlines
       (flat_map
          (fun k => category_header k
                    :: flat_map issue_lines
                         (filter (fun i => String.eqb (category i) k) l))
          keys))
  = length keys.
Proof.
  intros Hl. induction keys as [|k keys IH]; intros Hk; [reflexivity|].
  cbn [flat_map app map list_sum fold_right length].
  rewrite map_app, list_sum_app.
  rewrite (newlines_category_header _ (Hk k (or_introl eq_refl))).
  rewrite newlines_issue_block, IH.
  - reflexivity.
  - intros k' H. apply Hk. right. exact H.
  - rewrite forallb_forall in *. intros i Hi.
    apply filter_In in Hi as [Hi _]. apply Hl, Hi.
Qed.

(** ["\n".join]: one newline between two entries, besides their own. *)
Lemma newlines_join_lines (lines : list ustring) :
  newlines (join_lines lines)
  = (length lines - 1) + list_sum (map newlines lines).
Proof.
  induction lines as [|x lines IH]; [reflexivity|].
  destruct lines as [|y lines].
  - cbn [join_lines length map list_sum fold_right]. lia.
  - change (join_lines (x :: y :: lines))
      with (x ++ code nl :: join_lines (y :: lines)).
    rewrite newlines_app, newlines_cons, N.eqb_refl, IH.
    cbn [length map list_sum fold_right]. lia.
Qed.

(** X17. The report of a result with [n] issues in [c] distinct
    categories, where no category, message or suggestion holds a newline,
    prints as one summary line, two lines per category (every header opens
    with an empty line) and one or two lines per issue (two when the issue
    has a non-empty suggestion): the number of lines of the returned text is
    [1 + 2 c] plus the entries of the issues, hence between [1 + 2 c + n]
    and [1 + 2 c + 2 n]. *)
Theorem report_line_count (result : ValidationResult) :
  forallb single_line_issue (issues result) = true ->
  let c := length (nodup string_dec (map category (issues result))) in
  let n := length (issues result) in
  text_lines (format_validation_result result)
  = 1 + 2 * c + length (flat_map issue_lines (issues result))
  /\ 1 + 2 * c + n <= text_lines (format_validation_result result)
     <= 1 + 2 * c + 2 * n.
Proof.
  intros Hl c n.
  assert (L : text_lines (format_validation_result result)
              = 1 + 2 * c + length (flat_map issue_lines (issues result))).
  { unfold text_lines, format_validation_result.
    rewrite newlines_join_lines, report_lines_length. fold c.
    destruct (report_lines_grouped result) as (keys & E & _ & N & K & P).
    assert (Hc : length keys = c).
    { unfold c. apply Permutation_length, NoDup_Permutation; auto.
      - apply NoDup_nodup.
      - intros k. rewrite K, nodup_In, in_map_iff. split.
        + intros (i & Hi & <-). eauto.
        + intros (i & <- & Hi). eauto. }
    rewrite E. cbn [map list_sum fold_right].
    rewrite newlines_summary_line, newlines_blocks, Hc; [lia|exact Hl|].
    intros k Hk. apply K in Hk as (i & Hi & <-).
    rewrite forallb_forall in Hl. specialize (Hl i Hi).
    unfold single_line_issue in Hl. rewrite !andb_true_iff in Hl.
    apply Hl. }
  split; [exact L|].
  rewrite L. pose proof (flat_map_length_bounds (issues result)).
  unfold n. lia.
Qed.

Lemma report_line_count_witness :
  text_lines (format_validation_result (Result true [semicolon_issue])) = 5
  /\ text_lines
       (format_validation_result
          (Result false [empty_issue; semicolon_issue; limit_issue]))
     = 12.
Proof.
  split.
  - destruct (report_line_count (Result true [semicolon_issue]) eq_refl)
      as [H _].
    rewrite H. reflexivity.
  - destruct (report_line_count
                (Result false [empty_issue; semicolon_issue; limit_issue])
                eq_refl) as [H _].
    rewrite H. reflexivity.
Defined.

(** X18. A statement on which the aggregator finds nothing gets the
    one-line report "SQL validation passed - No issues found" behind the
    check mark. *)
Theorem report_clean (w : World) (sql : text)
    (config : option KingbaseConfig) (check_existence : bool)
    (r : ValidationResult) :
  validate_sql w sql config check_existence = Returned r ->
  issues r = [] ->
  format_validation_result r
  = CHECK_MARK :: u " SQL validation passed - No issues found".
Proof.
  intros E H. apply validate_sql_returned in E.
  unfold format_validation_result, report_lines, summary_line,
    get_warnings, get_info.
  rewrite E, H. reflexivity.
Qed.

Lemma report_clean_witness :
  format_validation_result (Result true [])
  = CHECK_MARK :: u " SQL validation passed - No issues found".
Proof.
  apply (@report_clean offline_world
           (t "SELECT id, name FROM users WHERE id = 1 LIMIT 10;")
           None false); vm_compute; reflexivity.
Defined.

(** ** What the aggregator lets through *)

(** X19. The aggregator raises in one situation only: the existence pass
    is enabled, no configuration is passed, and reading the configuration
    from the environment raises; the exception is that one.  A failing
    catalogue never makes it raise. *)
Theorem validate_sql_raises (w : World) (sql : text)
    (config : option KingbaseConfig) (check_existence : bool) (e : string) :
  validate_sql w sql config check_existence = Raised e
  <-> check_existence = true /\ config = None /\ from_env w = Raised e.
Proof.
  destruct check_existence.
  - rewrite validate_sql_existence. unfold validate_table_exists.
    destruct config as [c|]; [|destruct (from_env w) as [c|x] eqn:F];
      cbn [bind].
    + destruct (referenced_tables sql); cbn [bind]; split;
        [discriminate|intros (_ & H & _); discriminate
        |discriminate|intros (_ & H & _); discriminate].
    + destruct (referenced_tables sql); cbn [bind]; split;
        [discriminate|intros (_ & _ & H); discriminate
        |discriminate|intros (_ & _ & H); discriminate].
    + split; [intros H; injection H as ->; auto|].
      intros (_ & _ & H). injection H as ->. reflexivity.
  - rewrite validate_sql_static. split; [discriminate|].
    intros (H & _). discriminate.
Qed.

(** X20. Without any database driver, and with a configuration that
    passes its check, the existence pass on a statement that refers to a
    table ends in the single Warning "Could not verify table existence: No
    database driver available. Install psycopg2: pip install
    psycopg2-binary". *)
Theorem existence_no_driver (env : outcome KingbaseConfig) (sql : text)
    (c : KingbaseConfig) :
  fst (validate c) = true ->
  referenced_tables sql <> [] ->
  validate_table_exists (connected_world env None) sql (Some c) None
  = Returned
      (Result false
         [Issue WARNING "existence"
            "Could not verify table existence: No database driver available. Install psycopg2: pip install psycopg2-binary"
            None None (Some "Ensure database connection is working"%string)]).
Proof.
  intros Hv Ht. unfold validate_table_exists. cbn [bind].
  destruct (referenced_tables sql); [congruence|].
  cbn [connected_world pg_tables]. unfold connect_and_list.
  destruct (validate c) as [ok errors]. cbn [fst] in Hv. rewrite Hv.
  reflexivity.
Qed.

Lemma existence_no_driver_witness :
  validate_table_exists (connected_world (Raised "unset") None) sql_plain
    (Some default_config) None
  = Returned
      (Result false
         [Issue WARNING "existence"
            "Could not verify table existence: No database driver available. Install psycopg2: pip install psycopg2-binary"
            None None (Some "Ensure database connection is working"%string)]).
Proof.
  apply existence_no_driver; [reflexivity|vm_compute; discriminate].
Defined.

(** X21. Whatever the text, the performance checker reports its
    anti-patterns in the order of its catalogue, each at most once, then
    at most one LIMIT note and at most one WHERE warning: at most nine
    issues, all of category performance and none of them an Error. *)
Theorem performance_catalogue_order (sql : text) :
  subseq (map message (issues (validate_performance sql)))
         (map snd PERFORMANCE_PATTERNS
          ++ [message limit_issue; message where_issue])
  /\ length (issues (validate_performance sql)) <= 9
  /\ (forall i, In i (issues (validate_performance sql)) ->
        category i = "performance"%string /\ severity i <> ERROR).
Proof.
  assert (S : subseq (map message (issues (validate_performance sql)))
                (map snd PERFORMANCE_PATTERNS
                 ++ [message limit_issue; message where_issue])).
  { unfold validate_performance. cbn [issues].
    rewrite (flat_map_when (fun pm => re_search true (fst pm) sql)
               (fun pm => performance_issue WARNING (snd pm) None)).
    rewrite !map_app, map_map. cbn [performance_issue message].
    apply subseq_app; [apply subseq_map, subseq_filter|].
    change [message limit_issue; message where_issue]
      with ([message limit_issue] ++ [message where_issue]).
    apply subseq_app.
    - destruct (re_search true re_select_from sql
                && negb (re_search true re_limit sql)); simpl;
        [apply subseq_take|apply subseq_skip]; apply subseq_nil.
    - destruct (re_search true re_delete_update sql
                && negb (re_search true re_where sql)); simpl;
        [apply subseq_take|apply subseq_skip]; apply subseq_nil. }
  split; [exact S|]. split.
  - apply subseq_length in S. rewrite length_map in S. exact S.
  - intros i Hi. unfold validate_performance in Hi. cbn [issues] in Hi.
    rewrite !in_app_iff, in_flat_map in Hi.
    destruct Hi as [(pm & _ & Hi)|[Hi|Hi]]; apply in_when in Hi as [_ ->];
      split; (reflexivity || discriminate).
Qed.
